(** * Matterhorn: a shallow embedding of the spiking-neuron library

    The development follows the Python sources file by file:
    - [Py]        Python values, exceptions and default arguments;
    - [Torch]     the part of the tensor engine the sources call;
    - [Surrogate] the default spiking function;
    - [Soma]      matterhorn/snn/soma.py;
    - [Layer]     matterhorn/snn/layer.py;
    - [Containers] matterhorn/snn/container.py;
    - [Spec]      the reference definitions the theorems compare with.

    Numbers.  A Python [float] and a tensor element are modelled by an exact
    rational in canonical form ([Qc]): the arithmetic of the sources is read
    over the rationals, without rounding, infinities or NaN.  Tensors carry
    their shape and their elements in row-major order.  Elementwise
    operations between two tensors are defined on tensors of one shape and
    raise otherwise (broadcasting between distinct shapes is outside the
    model); operations between a float and a tensor apply to every element.

    Objects.  A method that assigns to [self] takes the object and returns
    the updated object; a method that can raise returns a [result], and
    the assignments made before an exception are not observed.  Constructor
    arguments with a default are options; [None] takes the default. *)

From Stdlib Require Import List ZArith QArith Qcanon Lia Bool Arith.
Import ListNotations.

(* ------------------------------------------------------------------ *)
(** ** Python values, exceptions, default arguments *)

Module Py.

(** The exceptions the sources can raise; [NonFinite] is not a Python
    exception but marks a value outside the rational model. *)
Inductive exn : Set :=
| AssertionError
| ZeroDivisionError
| IndexError
| AttributeError
| NotImplementedError
| RuntimeError
| NonFinite.

Inductive result (A : Type) : Type :=
| Ok (a : A)
| Raise (e : exn).
Arguments Ok {A} a.
Arguments Raise {A} e.

Definition bind {A B} (r : result A) (k : A -> result B) : result B :=
  match r with
  | Ok a => k a
  | Raise e => Raise e
  end.

Definition fmap {A B} (f : A -> B) (r : result A) : result B :=
  bind r (fun a => Ok (f a)).

(** A keyword argument left out by the caller takes its default. *)
Definition default {A} (d : A) (o : option A) : A :=
  match o with
  | Some a => a
  | None => d
  end.

(** [assert c] *)
Definition assert (c : bool) : result unit :=
  if c then Ok tt else Raise AssertionError.

(** Reading an attribute that may not have been assigned yet. *)
Definition getattr {A} (o : option A) : result A :=
  match o with
  | Some a => Ok a
  | None => Raise AttributeError
  end.

End Py.
Export Py.

Notation "x <- e ;; k" := (Py.bind e (fun x => k))
  (at level 61, e at next level, right associativity).
Notation "' p <- e ;; k" := (Py.bind e (fun x => match x with p => k end))
  (at level 61, p pattern, e at next level, right associativity).

(* ------------------------------------------------------------------ *)
(** ** Rationals as floats *)

Open Scope Qc_scope.

Definition Qcleb (a b : Qc) : bool := Qle_bool a b.

(** Python's [a / b] on floats. *)
Definition float_div (a b : Qc) : result Qc :=
  if Qc_eq_bool b 0 then Raise ZeroDivisionError else Ok (a / b).

(* ------------------------------------------------------------------ *)
(** ** The tensor engine *)

Module Torch.

Record tensor : Type := mkTensor { shape : list nat; data : list Qc }.

(** A value held in an attribute: a Python float or a tensor
    ([isinstance(u, float)] tells them apart). *)
Inductive value : Type :=
| PyFloat (v : Qc)
| PyTensor (t : tensor).

(** What a torch operator may hand back: a tensor, or a pair of tensors
    (values and indices). *)
Inductive object : Type :=
| OTensor (t : tensor)
| OTuple (t : tensor) (indices : tensor).

Definition numel (s : list nat) : nat := fold_right Nat.mul 1%nat s.

Definition shape_eqb (s1 s2 : list nat) : bool :=
  if list_eq_dec Nat.eq_dec s1 s2 then true else false.

(** Two tensors can be combined elementwise. *)
Definition same_shape (a b : tensor) : bool :=
  shape_eqb (shape a) (shape b)
  && Nat.eqb (length (data a)) (length (data b)).

(** Unary elementwise operation; also [float op tensor]. *)
Definition tmap (f : Qc -> Qc) (t : tensor) : tensor :=
  mkTensor (shape t) (map f (data t)).

Fixpoint map2 (f : Qc -> Qc -> Qc) (l1 l2 : list Qc) : list Qc :=
  match l1, l2 with
  | a :: l1', b :: l2' => f a b :: map2 f l1' l2'
  | _, _ => []
  end.

(** Binary elementwise operation between tensors. *)
Definition tzip (f : Qc -> Qc -> Qc) (a b : tensor) : result tensor :=
  if same_shape a b
  then Ok (mkTensor (shape a) (map2 f (data a) (data b)))
  else Raise RuntimeError.

Definition add := tzip Qcplus.
Definition sub := tzip Qcminus.
Definition mul := tzip Qcmult.

(** [torch.ones_like(x)] *)
Definition ones_like (x : tensor) : tensor := tmap (fun _ => 1) x.

(** [x.ge(c).to(x)] *)
Definition ge_to (c : Qc) (x : tensor) : tensor :=
  tmap (fun v => if Qcleb c v then 1 else 0) x.

(** [x.shape[0]] *)
Definition shape0 (x : tensor) : result nat :=
  match shape x with
  | n :: _ => Ok n
  | [] => Raise IndexError
  end.

(** [x[t]] for a non-negative index [t]. *)
Definition select (x : tensor) (t : nat) : result tensor :=
  match shape x with
  | n :: rest =>
      if Nat.ltb t n
      then Ok (mkTensor rest
                 (firstn (numel rest) (skipn (t * numel rest) (data x))))
      else Raise IndexError
  | [] => Raise IndexError
  end.

(** [torch.stack(tensors)]: a new leading axis; the list must be
    non-empty and its tensors of one shape. *)
Definition stack (ts : list tensor) : result tensor :=
  match ts with
  | [] => Raise RuntimeError
  | t0 :: _ =>
      if forallb (same_shape t0) ts
      then Ok (mkTensor (length ts :: shape t0) (flat_map data ts))
      else Raise RuntimeError
  end.

Fixpoint dot (l1 l2 : list Qc) : Qc :=
  match l1, l2 with
  | a :: l1', b :: l2' => a * b + dot l1' l2'
  | _, _ => 0
  end.

(** The [n] consecutive rows of length [k] of a row-major list. *)
Fixpoint rows (k n : nat) (l : list Qc) : list (list Qc) :=
  match n with
  | O => []
  | S n' => firstn k l :: rows k n' (skipn k l)
  end.

(** [nn.functional.linear(input, weight)] without bias: the last axis of
    [input] is contracted with the rows of [weight]. *)
Definition linear (input weight : tensor) : result tensor :=
  match shape weight, rev (shape input) with
  | [out_f; in_f], last :: lead =>
      if Nat.eqb last in_f
      then Ok (mkTensor (rev lead ++ [out_f])
                 (flat_map
                    (fun r => map (dot r) (rows in_f out_f (data weight)))
                    (rows in_f (numel lead) (data input))))
      else Raise RuntimeError
  | _, _ => Raise RuntimeError
  end.

(** [x / d] for a tensor [x] and a float [d].  The engine does not
    raise on a zero divisor but yields infinities or NaN, which have no
    rational counterpart: the model stops there with [NonFinite]. *)
Definition div_float (x : tensor) (d : Qc) : result tensor :=
  if Qc_eq_bool d 0 then Raise NonFinite
  else Ok (tmap (fun e => e / d) x).

(** Elementwise reading of a tensor. *)
Definition at_ (t : tensor) (i : nat) : option Qc := nth_error (data t) i.

End Torch.
Export Torch.

(* ------------------------------------------------------------------ *)
(** ** The default spiking function *)

Module Surrogate.

(** Modelled from the spec: [surrogate.Rectangular], the default
    [spiking_function] of every neuron, whose module is not among the
    sources.  Its forward pass is the hard threshold at zero applied
    after the caller has subtracted [u_threshold]: one where the
    argument is at least zero, zero elsewhere.  (Its backward pass, the
    surrogate gradient, plays no part in the forward values.) *)
Definition heaviside (v : Qc) : Qc := if Qcleb 0 v then 1 else 0.

Definition Rectangular (x : tensor) : tensor := tmap heaviside x.

End Surrogate.

(* ------------------------------------------------------------------ *)
(** ** matterhorn/snn/soma.py *)

Module Soma.

(** *** class PFHSkeleton *)

Record pfh : Type := mkPFH {
  pfh_tau_m : Qc;
  pfh_u_threshold : Qc;
  pfh_u_rest : Qc;
  pfh_spiking_function : tensor -> tensor;
  pfh_u : option value
}.

Definition pfh_set_u (self : pfh) (v : value) : pfh :=
  mkPFH (pfh_tau_m self) (pfh_u_threshold self) (pfh_u_rest self)
        (pfh_spiking_function self) (Some v).

Definition PFHSkeleton_reset (self : pfh) : pfh :=
  pfh_set_u self (PyFloat (pfh_u_rest self)).

Definition PFHSkeleton_init
    (tau_m u_threshold u_rest : option Qc)
    (spiking_function : option (tensor -> tensor)) : result pfh :=
  let tau_m := default 1 tau_m in
  let u_threshold := default 1 u_threshold in
  let u_rest := default 0 u_rest in
  let spiking_function := default Surrogate.Rectangular spiking_function in
  _ <- assert (negb (Qc_eq_bool tau_m 0));;
  Ok (PFHSkeleton_reset
        (mkPFH tau_m u_threshold u_rest spiking_function None)).

(** [init_tensor], the same in every class of the file. *)
Definition init_tensor (u : value) (x : tensor) : tensor :=
  match u with
  | PyFloat v => tmap (Qcmult v) (ones_like x)
  | PyTensor t => t
  end.

Definition PFHSkeleton_f_potential (self : pfh) (h x : tensor)
  : result tensor :=
  k <- float_div 1 (pfh_tau_m self);;
  add h (tmap (Qcmult k) x).

Definition PFHSkeleton_f_firing (self : pfh) (u : tensor) : tensor :=
  pfh_spiking_function self (tmap (fun e => e - pfh_u_threshold self) u).

Definition PFHSkeleton_f_history (self : pfh) (u o : tensor)
  : result tensor :=
  Raise NotImplementedError.

Definition PFHSkeleton_forward (self : pfh) (x : tensor)
  : result (pfh * tensor) :=
  u0 <- getattr (pfh_u self);;
  let h := init_tensor u0 x in
  let self := pfh_set_u self (PyTensor h) in
  u1 <- PFHSkeleton_f_potential self h x;;
  let self := pfh_set_u self (PyTensor u1) in
  let o := PFHSkeleton_f_firing self u1 in
  h' <- PFHSkeleton_f_history self u1 o;;
  let self := pfh_set_u self (PyTensor h') in
  Ok (self, o).

(** *** class RFRSkeleton and its subclasses *)

(** The class of an object, with the hyperparameters its own
    [__init__] adds to those of [RFRSkeleton]. *)
Inductive cls : Type :=
| cRFRSkeleton
| cIF
| cLIF
| cQIF (a_0 u_c : Qc)
| cEIF (u_t delta_t : Qc)
| cIzhikevich (a b : Qc).

(** The attributes of an object.  [u] and [w] are assigned by [reset]
    and by [forward]; [None] stands for an attribute not assigned. *)
Record soma : Type := mkSoma {
  class_ : cls;
  tau_m : Qc;
  u_threshold : Qc;
  u_rest : Qc;
  spiking_function : tensor -> tensor;
  u : option value;
  w : option value
}.

Definition set_u (self : soma) (v : value) : soma :=
  mkSoma (class_ self) (tau_m self) (u_threshold self) (u_rest self)
         (spiking_function self) (Some v) (w self).

Definition set_w (self : soma) (v : value) : soma :=
  mkSoma (class_ self) (tau_m self) (u_threshold self) (u_rest self)
         (spiking_function self) (u self) (Some v).

Definition RFRSkeleton_reset (self : soma) : soma :=
  set_u self (PyFloat (u_rest self)).

Definition Izhikevich_reset (self : soma) : soma :=
  let self := set_u self (PyFloat 0) in
  set_w self (PyFloat 0).

(** [self.reset()]: the method of the object's class. *)
Definition reset (self : soma) : soma :=
  match class_ self with
  | cIzhikevich _ _ => Izhikevich_reset self
  | _ => RFRSkeleton_reset self
  end.

(** The body of [RFRSkeleton.__init__], run on an object of class [c]. *)
Definition RFRSkeleton_init_ (c : cls)
    (tau_m u_threshold u_rest : option Qc)
    (spiking_function : option (tensor -> tensor)) : soma :=
  let tau_m := default 1 tau_m in
  let u_threshold := default 1 u_threshold in
  let u_rest := default 0 u_rest in
  let spiking_function := default Surrogate.Rectangular spiking_function in
  reset (mkSoma c tau_m u_threshold u_rest spiking_function None None).

Definition RFRSkeleton_init := RFRSkeleton_init_ cRFRSkeleton.

Definition IF_init (u_threshold u_rest : option Qc)
    (spiking_function : option (tensor -> tensor)) : soma :=
  let u_threshold := default 1 u_threshold in
  let u_rest := default 0 u_rest in
  let spiking_function := default Surrogate.Rectangular spiking_function in
  RFRSkeleton_init_ cIF (Some 1) (Some u_threshold) (Some u_rest)
                    (Some spiking_function).

Definition LIF_init (tau_m u_threshold u_rest : option Qc)
    (spiking_function : option (tensor -> tensor)) : soma :=
  let tau_m := default (Q2Qc 2) tau_m in
  let u_threshold := default 1 u_threshold in
  let u_rest := default 0 u_rest in
  let spiking_function := default Surrogate.Rectangular spiking_function in
  RFRSkeleton_init_ cLIF (Some tau_m) (Some u_threshold) (Some u_rest)
                    (Some spiking_function).

Definition QIF_init (tau_m u_threshold u_rest u_c a_0 : option Qc)
    (spiking_function : option (tensor -> tensor)) : soma :=
  let tau_m := default (Q2Qc 2) tau_m in
  let u_threshold := default 1 u_threshold in
  let u_rest := default 0 u_rest in
  let u_c := default (Q2Qc (8 # 10)) u_c in
  let a_0 := default 1 a_0 in
  let spiking_function := default Surrogate.Rectangular spiking_function in
  RFRSkeleton_init_ (cQIF a_0 u_c) (Some tau_m) (Some u_threshold)
                    (Some u_rest) (Some spiking_function).

Definition EIF_init (tau_m u_threshold u_rest u_t delta_t : option Qc)
    (spiking_function : option (tensor -> tensor)) : soma :=
  let tau_m := default (Q2Qc 2) tau_m in
  let u_threshold := default 1 u_threshold in
  let u_rest := default 0 u_rest in
  let u_t := default (Q2Qc 8) u_t in
  let delta_t := default 1 delta_t in
  let spiking_function := default Surrogate.Rectangular spiking_function in
  RFRSkeleton_init_ (cEIF u_t delta_t) (Some tau_m) (Some u_threshold)
                    (Some u_rest) (Some spiking_function).

Definition Izhikevich_init (a b u_threshold : option Qc)
    (spiking_function : option (tensor -> tensor)) : soma :=
  let a := default 1 a in
  let b := default 1 b in
  let u_threshold := default 1 u_threshold in
  let spiking_function := default Surrogate.Rectangular spiking_function in
  RFRSkeleton_init_ (cIzhikevich a b) (Some 1) (Some u_threshold) (Some 0)
                    (Some spiking_function).

(** **** The response stage, class by class *)

Definition RFRSkeleton_f_response (self : soma) (h x : tensor)
  : result (soma * tensor) :=
  k <- float_div 1 (tau_m self);;
  d <- add (tmap Qcopp (tmap (fun e => e - u_rest self) h)) x;;
  let du := tmap (Qcmult k) d in
  u <- add h du;;
  Ok (self, u).

Definition IF_f_response (self : soma) (h x : tensor)
  : result (soma * tensor) :=
  u <- add h x;;
  Ok (self, u).

Definition LIF_f_response (self : soma) (h x : tensor)
  : result (soma * tensor) :=
  k <- float_div 1 (tau_m self);;
  d <- add (tmap Qcopp (tmap (fun e => e - u_rest self) h)) x;;
  let du := tmap (Qcmult k) d in
  u <- add h du;;
  Ok (self, u).

Definition QIF_f_response (a_0 u_c : Qc) (self : soma) (h x : tensor)
  : result (soma * tensor) :=
  k <- float_div 1 (tau_m self);;
  q <- mul (tmap (Qcmult (- a_0)) (tmap (fun e => e - u_rest self) h))
           (tmap (fun e => e - u_c) h);;
  d <- add q x;;
  let du := tmap (Qcmult k) d in
  u <- add h du;;
  Ok (self, u).

(** [torch.exp] is a parameter: [exp] is its value on one element. *)
Definition EIF_f_response (exp : Qc -> Qc) (u_t delta_t : Qc)
    (self : soma) (h x : tensor) : result (soma * tensor) :=
  k <- float_div 1 (tau_m self);;
  z <- div_float (tmap (fun e => e - u_t) h) delta_t;;
  d0 <- add (tmap Qcopp (tmap (fun e => e - u_rest self) h))
            (tmap (Qcmult delta_t) (tmap exp z));;
  d <- add d0 x;;
  let du := tmap (Qcmult k) d in
  u <- add h du;;
  Ok (self, u).

Definition Izhikevich_f_response (a b : Qc) (self : soma) (h x : tensor)
  : result (soma * tensor) :=
  w0 <- getattr (w self);;
  let wt := init_tensor w0 h in
  let self := set_w self (PyTensor wt) in
  d <- sub (tmap (Qcmult b) h) wt;;
  let dw := tmap (Qcmult a) d in
  w1 <- add wt dw;;
  let self := set_w self (PyTensor w1) in
  q <- mul (tmap (Qcmult (Q2Qc (4 # 100))) h) h;;
  p <- add q (tmap (Qcmult (Q2Qc 5)) h);;
  m <- sub (tmap (fun e => e + Q2Qc 140) p) w1;;
  du <- add m x;;
  u <- add h du;;
  Ok (self, u).

(** [self.f_response(h, x)]: the method of the object's class. *)
Definition f_response (exp : Qc -> Qc) (self : soma) (h x : tensor)
  : result (soma * tensor) :=
  match class_ self with
  | cRFRSkeleton => RFRSkeleton_f_response self h x
  | cIF => IF_f_response self h x
  | cLIF => LIF_f_response self h x
  | cQIF a_0 u_c => QIF_f_response a_0 u_c self h x
  | cEIF u_t delta_t => EIF_f_response exp u_t delta_t self h x
  | cIzhikevich a b => Izhikevich_f_response a b self h x
  end.

(** **** Firing, reset, and the forward pass (not overridden) *)

Definition f_firing (self : soma) (u : tensor) : tensor :=
  spiking_function self (tmap (fun e => e - u_threshold self) u).

Definition f_reset (self : soma) (u o : tensor) : result tensor :=
  a <- mul u (tmap (fun e => 1 - e) o);;
  add a (tmap (Qcmult (u_rest self)) o).

Definition forward (exp : Qc -> Qc) (self : soma) (x : tensor)
  : result (soma * tensor) :=
  u0 <- getattr (u self);;
  let h := init_tensor u0 x in
  let self := set_u self (PyTensor h) in
  '(self, u1) <- f_response exp self h x;;
  let self := set_u self (PyTensor u1) in
  let o := f_firing self u1 in
  h' <- f_reset self u1 o;;
  let self := set_u self (PyTensor h') in
  Ok (self, o).

End Soma.

(* ------------------------------------------------------------------ *)
(** ** matterhorn/snn/layer.py *)

Module Layer.

Import Soma.

(** *** class val_to_spike *)

Definition val_to_spike_forward (x : tensor) : tensor :=
  ge_to (Q2Qc (1 # 2)) x.

(** [val_to_spike.apply(y)]: the forward pass on what the caller hands
    over; a tuple has no method [ge]. *)
Definition val_to_spike_apply (y : object) : result tensor :=
  match y with
  | OTensor t => Ok (val_to_spike_forward t)
  | OTuple _ _ => Raise AttributeError
  end.

(** *** class SRM0Linear *)

Record srm0 : Type := mkSRM0 {
  in_features : nat;
  out_features : nat;
  weight : tensor;
  tau_m : Qc;
  u_threshold : Qc;
  u_rest : Qc;
  spiking_function : tensor -> tensor;
  s : option value;
  r : option value
}.

Definition set_s (self : srm0) (v : value) : srm0 :=
  mkSRM0 (in_features self) (out_features self) (weight self)
         (tau_m self) (u_threshold self) (u_rest self)
         (spiking_function self) (Some v) (r self).

Definition set_r (self : srm0) (v : value) : srm0 :=
  mkSRM0 (in_features self) (out_features self) (weight self)
         (tau_m self) (u_threshold self) (u_rest self)
         (spiking_function self) (s self) (Some v).

Definition SRM0Linear_reset (self : srm0) : srm0 :=
  let self := set_s self (PyFloat 0) in
  set_r self (PyFloat 0).

(** [drawn] are the values [nn.init.kaiming_uniform_] writes into the
    weight, in row-major order. *)
Definition SRM0Linear_init (in_features out_features : nat)
    (drawn : list Qc)
    (tau_m u_threshold u_rest : option Qc)
    (spiking_function : option (tensor -> tensor)) : srm0 :=
  let tau_m := default (Q2Qc 2) tau_m in
  let u_threshold := default 1 u_threshold in
  let u_rest := default 0 u_rest in
  let spiking_function := default Surrogate.Rectangular spiking_function in
  let weight := mkTensor [out_features; in_features] drawn in
  SRM0Linear_reset
    (mkSRM0 in_features out_features weight tau_m u_threshold u_rest
            spiking_function None None).

Definition f_synapse_response (self : srm0) (s o : tensor)
  : result tensor :=
  k <- float_div 1 (tau_m self);;
  add (tmap (Qcmult k) s) o.

Definition f_synapse_sum (self : srm0) (w s : tensor) : result tensor :=
  linear s w.

Definition f_response (self : srm0) (r x : tensor) : result tensor :=
  p <- mul x r;;
  Ok (tmap (Qcplus (u_rest self)) p).

Definition f_firing (self : srm0) (u : tensor) : tensor :=
  spiking_function self (tmap (fun e => e - u_threshold self) u).

Definition f_reset (self : srm0) (u o : tensor) : tensor :=
  tmap (fun e => 1 - e) o.

Definition SRM0Linear_forward (self : srm0) (o : tensor)
  : result (srm0 * tensor) :=
  s0 <- getattr (s self);;
  let st := init_tensor s0 o in
  let self := set_s self (PyTensor st) in
  s1 <- f_synapse_response self st o;;
  let self := set_s self (PyTensor s1) in
  x <- f_synapse_sum self (weight self) s1;;
  r0 <- getattr (r self);;
  let rt := init_tensor r0 x in
  let self := set_r self (PyTensor rt) in
  u <- f_response self rt x;;
  let o := f_firing self u in
  let self := set_r self (PyTensor (f_reset self u o)) in
  Ok (self, o).

(** *** The pooling and reshaping adapters

    Each class extends the torch layer of the same name and overrides
    [forward]; [super_forward] is the forward pass of the torch layer
    with the constructor's arguments.  A max-pooling layer built with
    [return_indices = True] hands back a pair, the other layers always
    a tensor. *)

Inductive adapter : Type :=
| MaxPool1d (super_forward : tensor -> result object)
| MaxPool2d (super_forward : tensor -> result object)
| MaxPool3d (super_forward : tensor -> result object)
| AvgPool1d (super_forward : tensor -> result tensor)
| AvgPool2d (super_forward : tensor -> result tensor)
| AvgPool3d (super_forward : tensor -> result tensor)
| Flatten (super_forward : tensor -> result tensor)
| Unflatten (super_forward : tensor -> result tensor).

Definition MaxPool1d_forward (super_forward : tensor -> result object)
    (x : tensor) : result tensor :=
  y <- super_forward x;;
  val_to_spike_apply y.

Definition MaxPool2d_forward (super_forward : tensor -> result object)
    (x : tensor) : result tensor :=
  y <- super_forward x;;
  val_to_spike_apply y.

Definition MaxPool3d_forward (super_forward : tensor -> result object)
    (x : tensor) : result tensor :=
  y <- super_forward x;;
  val_to_spike_apply y.

Definition AvgPool1d_forward (super_forward : tensor -> result tensor)
    (x : tensor) : result tensor :=
  y <- super_forward x;;
  val_to_spike_apply (OTensor y).

Definition AvgPool2d_forward (super_forward : tensor -> result tensor)
    (x : tensor) : result tensor :=
  y <- super_forward x;;
  val_to_spike_apply (OTensor y).

Definition AvgPool3d_forward (super_forward : tensor -> result tensor)
    (x : tensor) : result tensor :=
  y <- super_forward x;;
  val_to_spike_apply (OTensor y).

Definition Flatten_forward (super_forward : tensor -> result tensor)
    (x : tensor) : result tensor :=
  y <- super_forward x;;
  val_to_spike_apply (OTensor y).

Definition Unflatten_forward (super_forward : tensor -> result tensor)
    (x : tensor) : result tensor :=
  y <- super_forward x;;
  val_to_spike_apply (OTensor y).

(** [layer(x)]: the [forward] of the layer's class. *)
Definition adapter_forward (layer : adapter) (x : tensor) : result tensor :=
  match layer with
  | MaxPool1d f => MaxPool1d_forward f x
  | MaxPool2d f => MaxPool2d_forward f x
  | MaxPool3d f => MaxPool3d_forward f x
  | AvgPool1d f => AvgPool1d_forward f x
  | AvgPool2d f => AvgPool2d_forward f x
  | AvgPool3d f => AvgPool3d_forward f x
  | Flatten f => Flatten_forward f x
  | Unflatten f => Unflatten_forward f x
  end.

(** What the underlying torch operator hands back, as an [object]. *)
Definition adapter_super (layer : adapter) (x : tensor) : result object :=
  match layer with
  | MaxPool1d f | MaxPool2d f | MaxPool3d f => f x
  | AvgPool1d f | AvgPool2d f | AvgPool3d f
  | Flatten f | Unflatten f => fmap OTensor (f x)
  end.

End Layer.

(* ------------------------------------------------------------------ *)
(** ** matterhorn/snn/container.py *)

Module Containers.

(** What a container asks of the modules it holds: they can be called,
    and each of the four lifecycle methods is present or not
    ([hasattr(module, "reset")] and the like). *)
Class NNModule (M : Type) : Type := {
  call : M -> tensor -> result (M * tensor);
  reset_method : option (M -> M);
  start_step_method : option (M -> M);
  stop_step_method : option (M -> M);
  step_once_method : option (M -> M)
}.

(** [if hasattr(m, name): m.name()] *)
Definition call_if_present {M} (method : option (M -> M)) (m : M) : M :=
  match method with
  | Some f => f m
  | None => m
  end.

(** *** class Temporal *)

Section Temporal.

Context {M : Type} `{NNModule M}.

Record temporal : Type := mkTemporal {
  module : M;
  reset_after_process : bool;
  step_after_process : bool
}.

Definition set_module (self : temporal) (m : M) : temporal :=
  mkTemporal m (reset_after_process self) (step_after_process self).

Definition set_step_after_process (self : temporal) (b : bool)
  : temporal :=
  mkTemporal (module self) (reset_after_process self) b.

Definition Temporal_init (module : M)
    (reset_after_process : option bool) : temporal :=
  let reset_after_process := default true reset_after_process in
  mkTemporal module reset_after_process false.

Definition Temporal_reset (self : temporal) : temporal :=
  set_module self (call_if_present reset_method (module self)).

Definition Temporal_start_step (self : temporal) : temporal :=
  let self := set_step_after_process self true in
  set_module self (call_if_present start_step_method (module self)).

Definition Temporal_stop_step (self : temporal) : temporal :=
  let self := set_step_after_process self false in
  set_module self (call_if_present stop_step_method (module self)).

Definition Temporal_step_once (self : temporal) : temporal :=
  set_module self (call_if_present step_once_method (module self)).

(** The loop [for t in range(time_steps): result.append(...)], over
    the indices [ts] still to visit. *)
Fixpoint Temporal_loop (x : tensor) (ts : list nat)
    (self : temporal) (result_ : list tensor)
  : result (temporal * list tensor) :=
  match ts with
  | [] => Ok (self, result_)
  | t :: ts' =>
      xt <- select x t;;
      '(m, y) <- call (module self) xt;;
      Temporal_loop x ts' (set_module self m) (result_ ++ [y])
  end.

Definition Temporal_forward (self : temporal) (x : tensor)
  : result (temporal * tensor) :=
  time_steps <- shape0 x;;
  '(self, result_) <- Temporal_loop x (seq 0 time_steps) self [];;
  y <- stack result_;;
  let self := if step_after_process self
              then Temporal_step_once self else self in
  let self := if reset_after_process self
              then Temporal_reset self else self in
  Ok (self, y).

End Temporal.

Arguments temporal M : clear implicits.

(** *** class Container *)

Section Container.

Context {Enc Snn Dec : Type}
        `{NNModule Enc} `{NNModule Snn} `{NNModule Dec}.

Record container : Type := mkContainer {
  encoder : option Enc;
  snn_model : option Snn;
  decoder : option Dec
}.

Definition Container_init (encoder : option (option Enc))
    (snn_model : option (option Snn)) (decoder : option (option Dec))
  : container :=
  mkContainer (default None encoder) (default None snn_model)
              (default None decoder).

(** [hasattr(o, name)] is false on [None]. *)
Definition call_on_optional {X} (method : option (X -> X))
    (o : option X) : option X :=
  match o with
  | Some m => Some (call_if_present method m)
  | None => None
  end.

Definition Container_reset (self : container) : container :=
  mkContainer (call_on_optional reset_method (encoder self))
              (call_on_optional reset_method (snn_model self))
              (call_on_optional reset_method (decoder self)).

Definition Container_start_step (self : container) : container :=
  mkContainer (encoder self)
              (call_on_optional start_step_method (snn_model self))
              (decoder self).

Definition Container_stop_step (self : container) : container :=
  mkContainer (encoder self)
              (call_on_optional stop_step_method (snn_model self))
              (decoder self).

Definition Container_step_once (self : container) : container :=
  mkContainer (encoder self)
              (call_on_optional step_once_method (snn_model self))
              (decoder self).

Definition Container_forward (self : container) (x : tensor)
  : result (container * tensor) :=
  '(self, x) <-
    match encoder self with
    | Some e =>
        '(e', x') <- call e x;;
        Ok (mkContainer (Some e') (snn_model self) (decoder self), x')
    | None => Ok (self, x)
    end;;
  '(self, x) <-
    match snn_model self with
    | Some m =>
        '(m', x') <- call m x;;
        Ok (mkContainer (encoder self) (Some m') (decoder self), x')
    | None => Ok (self, x)
    end;;
  '(self, x) <-
    match decoder self with
    | Some d =>
        '(d', x') <- call d x;;
        Ok (mkContainer (encoder self) (snn_model self) (Some d'), x')
    | None => Ok (self, x)
    end;;
  Ok (self, x).

End Container.

Arguments container Enc Snn Dec : clear implicits.

(** *** The modules of soma.py and layer.py as container members *)

#[export] Instance soma_NNModule (exp : Qc -> Qc) : NNModule Soma.soma := {|
  call := Soma.forward exp;
  reset_method := Some Soma.reset;
  start_step_method := None;
  stop_step_method := None;
  step_once_method := None
|}.

#[export] Instance srm0_NNModule : NNModule Layer.srm0 := {|
  call := Layer.SRM0Linear_forward;
  reset_method := Some Layer.SRM0Linear_reset;
  start_step_method := None;
  stop_step_method := None;
  step_once_method := None
|}.

#[export] Instance adapter_NNModule : NNModule Layer.adapter := {|
  call := fun layer x => fmap (pair layer) (Layer.adapter_forward layer x);
  reset_method := None;
  start_step_method := None;
  stop_step_method := None;
  step_once_method := None
|}.

End Containers.

(* ------------------------------------------------------------------ *)
(** ** Reference definitions

    What the properties below compare the code with: a hand-written
    unrolling of a module over a sequence, a pipeline of stages, the
    objects a constructor can return, and readings of tensors. *)

Module Spec.

Import Containers.

(** Every element is [0] or [1]. *)
Definition binary (t : tensor) : Prop :=
  Forall (fun e => e = 0 \/ e = 1) (data t).

(** [o] is [x] thresholded at [c], element by element. *)
Definition thresholded (c : Qc) (x o : tensor) : Prop :=
  shape o = shape x /\
  length (data o) = length (data x) /\
  forall i v, at_ x i = Some v ->
    (c <= v /\ at_ o i = Some 1) \/ (v < c /\ at_ o i = Some 0).

(** The element at index [i] of a stored value; a float stands for a
    tensor that holds it everywhere. *)
Definition value_at (v : value) (i : nat) : option Qc :=
  match v with
  | PyFloat q => Some q
  | PyTensor t => at_ t i
  end.

(** [k] times [c], as [k] additions of [c]. *)
Fixpoint times (k : nat) (c : Qc) : Qc :=
  match k with
  | O => 0
  | S k' => times k' c + c
  end.

(** One element of an IF neuron: the spike on input [c] at potential [u],
    and the potential stored afterwards. *)
Definition IF_fire (th u c : Qc) : Qc := Surrogate.heaviside (u + c - th).

Definition IF_next (th ur u c : Qc) : Qc :=
  (u + c) * (1 - IF_fire th u c) + ur * IF_fire th u c.

(** The potential of one element after [k] steps on input [c] from [u]. *)
Fixpoint IF_potential (th ur c u : Qc) (k : nat) : Qc :=
  match k with
  | O => u
  | S k' => IF_potential th ur c (IF_next th ur u c) k'
  end.

(** The slice [x[t]] without the bounds check. *)
Definition slice (x : tensor) (t : nat) : tensor :=
  mkTensor (tl (shape x))
    (firstn (numel (tl (shape x)))
            (skipn (t * numel (tl (shape x))) (data x))).

(** The slices [x[0]], ..., [x[T-1]]. *)
Definition unbind (x : tensor) (T : nat) : list tensor :=
  map (slice x) (seq 0 T).

Section Unrolling.

Context {M : Type} `{NNModule M}.

(** Calling the module by hand on each input in turn, from state [m]:
    the last state and the outputs in order. *)
Fixpoint manual_calls (m : M) (xs : list tensor) : result (M * list tensor) :=
  match xs with
  | [] => Ok (m, [])
  | x :: xs' =>
      '(m1, y) <- call m x;;
      '(m2, ys) <- manual_calls m1 xs';;
      Ok (m2, y :: ys)
  end.

(** Slice, call by hand, stack. *)
Definition manual_unrolled (m : M) (x : tensor) : result (M * tensor) :=
  T <- shape0 x;;
  '(mT, ys) <- manual_calls m (unbind x T);;
  y <- stack ys;;
  Ok (mT, y).

(** What [Temporal.forward] does to the container once the loop is
    over. *)
Definition after_process (self : temporal M) : temporal M :=
  let self := if step_after_process self
              then Temporal_step_once self else self in
  if reset_after_process self then Temporal_reset self else self.

(** The inner module after the learning hook that [Temporal.forward] runs
    when [step_after_process] is set. *)
Definition after_learning_hook (self : temporal M) (m : M) : M :=
  if step_after_process self
  then call_if_present step_once_method m else m.

End Unrolling.

Section Pipeline.

Context {Enc Snn Dec : Type}
        `{NNModule Enc} `{NNModule Snn} `{NNModule Dec}.

Definition stage : Type :=
  container Enc Snn Dec -> tensor -> result (container Enc Snn Dec * tensor).

Definition encoder_stage (e : Enc) : stage := fun self x =>
  '(e', y) <- call e x;;
  Ok (mkContainer (Some e') (snn_model self) (decoder self), y).

Definition snn_model_stage (m : Snn) : stage := fun self x =>
  '(m', y) <- call m x;;
  Ok (mkContainer (encoder self) (Some m') (decoder self), y).

Definition decoder_stage (d : Dec) : stage := fun self x =>
  '(d', y) <- call d x;;
  Ok (mkContainer (encoder self) (snn_model self) (Some d'), y).

Definition optional_stage {X} (f : X -> stage) (o : option X) : list stage :=
  match o with
  | Some m => [f m]
  | None => []
  end.

(** The stages that are not [None], encoder first, decoder last. *)
Definition present_stages (self : container Enc Snn Dec) : list stage :=
  optional_stage encoder_stage (encoder self)
  ++ optional_stage snn_model_stage (snn_model self)
  ++ optional_stage decoder_stage (decoder self).

Fixpoint run_stages (stages : list stage) (self : container Enc Snn Dec)
    (x : tensor) : result (container Enc Snn Dec * tensor) :=
  match stages with
  | [] => Ok (self, x)
  | st :: stages' =>
      '(self', y) <- st self x;;
      run_stages stages' self' y
  end.

End Pipeline.

(** The classes whose response stage computes [1.0 / self.tau_m]. *)
Definition divides_by_tau_m (c : Soma.cls) : bool :=
  match c with
  | Soma.cIF | Soma.cIzhikevich _ _ => false
  | _ => true
  end.

(** The objects the constructors of the Response-Firing-Reset family
    return. *)
Inductive soma_constructed : Soma.soma -> Prop :=
| new_RFRSkeleton tau_m u_threshold u_rest sf :
    soma_constructed (Soma.RFRSkeleton_init tau_m u_threshold u_rest sf)
| new_IF u_threshold u_rest sf :
    soma_constructed (Soma.IF_init u_threshold u_rest sf)
| new_LIF tau_m u_threshold u_rest sf :
    soma_constructed (Soma.LIF_init tau_m u_threshold u_rest sf)
| new_QIF tau_m u_threshold u_rest u_c a_0 sf :
    soma_constructed (Soma.QIF_init tau_m u_threshold u_rest u_c a_0 sf)
| new_EIF tau_m u_threshold u_rest u_t delta_t sf :
    soma_constructed (Soma.EIF_init tau_m u_threshold u_rest u_t delta_t sf)
| new_Izhikevich a b u_threshold sf :
    soma_constructed (Soma.Izhikevich_init a b u_threshold sf).

(** The objects the constructor of [SRM0Linear] returns. *)
Inductive srm0_constructed : Layer.srm0 -> Prop :=
| new_SRM0Linear in_features out_features drawn tau_m u_threshold u_rest sf :
    srm0_constructed
      (Layer.SRM0Linear_init in_features out_features drawn
                             tau_m u_threshold u_rest sf).

End Spec.

(* ------------------------------------------------------------------ *)
(** ** One element of a neuron

    The stages of [RFRSkeleton.forward] read on a single element, for the
    classes whose only state is [u]; the elementwise theorems compare the
    tensor code with them. *)

Module Pointwise.

(** The classes whose only state is [u]. *)
Definition only_u (c : Soma.cls) : bool :=
  match c with
  | Soma.cIzhikevich _ _ => false
  | _ => true
  end.

(** The potential after the response stage, from [h] on input [x]. *)
Definition response (exp : Qc -> Qc) (c : Soma.cls) (tau ur h x : Qc) : Qc :=
  match c with
  | Soma.cIF => h + x
  | Soma.cQIF a_0 u_c =>
      h + 1 / tau * (- a_0 * (h - ur) * (h - u_c) + x)
  | Soma.cEIF u_t delta_t =>
      h + 1 / tau * (- (h - ur) + delta_t * exp ((h - u_t) / delta_t) + x)
  | _ => h + 1 / tau * (- (h - ur) + x)
  end.

(** The spike at potential [U]. *)
Definition fire (th U : Qc) : Qc := Surrogate.heaviside (U - th).

(** The potential kept after the reset stage. *)
Definition keep_or_reset (ur U o : Qc) : Qc := U * (1 - o) + ur * o.

(** One forward pass: the stored potential afterwards. *)
Definition step (exp : Qc -> Qc) (c : Soma.cls) (tau th ur h x : Qc) : Qc :=
  let U := response exp c tau ur h x in
  keep_or_reset ur U (fire th U).

(** The stored potential after [k] passes on the same input [x]. *)
Fixpoint potential_after (exp : Qc -> Qc) (c : Soma.cls)
    (tau th ur x h : Qc) (k : nat) : Qc :=
  match k with
  | O => h
  | S k' => potential_after exp c tau th ur x (step exp c tau th ur h x) k'
  end.

(** The spike of pass number [k] (counted from 0). *)
Definition spike_at (exp : Qc -> Qc) (c : Soma.cls)
    (tau th ur x h : Qc) (k : nat) : Qc :=
  fire th (response exp c tau ur (potential_after exp c tau th ur x h k) x).

(** The classes that run the response of [RFRSkeleton] itself. *)
Definition leaky (c : Soma.cls) : Prop :=
  c = Soma.cRFRSkeleton \/ c = Soma.cLIF.

End Pointwise.

(* ------------------------------------------------------------------ *)
(** ** Shapes *)

(** [t] has the shape and the number of elements of [x]. *)
Definition like (x t : tensor) : Prop :=
  shape t = shape x /\ length (data t) = length (data x).

(** A stored value that [init_tensor] turns into a tensor like [x]. *)
Definition value_like (x : tensor) (v : value) : Prop :=
  match v with
  | PyFloat _ => True
  | PyTensor t => like x t
  end.

(** A spiking function that keeps the shape of its argument. *)
Definition shape_preserving (sf : tensor -> tensor) : Prop :=
  forall t, like t (sf t).

(* ------------------------------------------------------------------ *)
(** ** Concrete neurons, layers and inputs *)

(** A stand-in for [torch.exp] where no EIF neuron is involved. *)
Definition exp_unused : Qc -> Qc := fun q => q.

Definition half : Qc := Q2Qc (1 # 2).
Definition quarter : Qc := Q2Qc (1 # 4).

(** An IF neuron with the default threshold 1 and resting potential 0. *)
Definition if_neuron : Soma.soma := Soma.IF_init None None None.

(** Two time steps of one element each, both 1/2. *)
Definition two_halves : tensor := mkTensor [2; 1]%nat [half; half].

(** An LIF neuron with the defaults ([tau_m = 2]), two steps of input 1. *)
Definition lif_neuron : Soma.soma := Soma.LIF_init None None None None.

Definition one_one : tensor := mkTensor [1]%nat [1].

(** A 2-by-2 SRM0Linear layer with the identity as weight. *)
Definition srm0_layer : Layer.srm0 :=
  Layer.SRM0Linear_init 2 2 [1; 0; 0; 1] None None None None.

Definition spike_left : tensor := mkTensor [1; 2]%nat [1; 0].

(** The layer and the output after one more forward pass. *)
Definition srm0_after (l : Layer.srm0) (o : tensor) : Layer.srm0 :=
  match Layer.SRM0Linear_forward l o with
  | Ok (l', _) => l'
  | Raise _ => l
  end.

Definition srm0_out (l : Layer.srm0) (o : tensor) : tensor :=
  match Layer.SRM0Linear_forward l o with
  | Ok (_, out) => out
  | Raise _ => o
  end.

(** An Izhikevich neuron with the defaults ([a = b = 1]) on input 1. *)
Definition izhikevich_neuron : Soma.soma :=
  Soma.Izhikevich_init None None None None.

(** One step of each kind: the left element reaches the threshold 1
    after two inputs of 1/2, the right one holds 2 * 1/4. *)
Definition half_quarter : tensor := mkTensor [2]%nat [half; quarter].

(** The means of the consecutive pairs of a list: an average pooling with
    kernel 2 on one axis. *)
Fixpoint pair_means (l : list Qc) : list Qc :=
  match l with
  | a :: b :: l' => (a + b) / Q2Qc 2 :: pair_means l'
  | _ => []
  end.

Definition avg_pool_pairs (x : tensor) : result tensor :=
  Ok (mkTensor [length (pair_means (data x))] (pair_means (data x))).



(** An LIF neuron that holds the potential 1/2 in its one element, and a
    step without input. *)
Definition lif_charged : Soma.soma :=
  Soma.set_u lif_neuron (PyTensor (mkTensor [1]%nat [half])).

Definition zero_one : tensor := mkTensor [1]%nat [0].

(** Two pairs of equal spikes: their averages are spikes again. *)
Definition spike_pairs : tensor := mkTensor [4]%nat [1; 1; 0; 0].

(* ------------------------------------------------------------------ *)
(** ** Basic facts: results, rationals, tensors *)

Lemma bind_Ok_inv {A B} (r : result A) (k : A -> result B) (b : B) :
  Py.bind r k = Ok b -> exists a, r = Ok a /\ k a = Ok b.
Proof.
  destruct r as [a|e]; simpl; intros Hb.
  - exists a. split; [reflexivity | exact Hb].
  - discriminate Hb.
Qed.

(** Peel the binds of a hypothesis [bind ... = Ok _]. *)
Ltac inv_bind H :=
  let a := fresh "a" in
  let Ha := fresh "Ha" in
  apply bind_Ok_inv in H; destruct H as [a [Ha H]].

Lemma Qcleb_true (a b : Qc) : Qcleb a b = true <-> a <= b.
Proof. unfold Qcleb, Qcle. apply Qle_bool_iff. Qed.

Lemma Qcleb_false (a b : Qc) : Qcleb a b = false <-> b < a.
Proof.
  split; intros Hab.
  - apply Qcnot_le_lt. intros Hle. apply Qcleb_true in Hle. congruence.
  - destruct (Qcleb a b) eqn:E; [|reflexivity].
    apply Qcleb_true in E. exfalso. exact (Qcle_not_lt _ _ E Hab).
Qed.

Lemma Qc_eq_bool_true (a b : Qc) : Qc_eq_bool a b = true <-> a = b.
Proof.
  split; [apply Qc_eq_bool_correct|].
  intros ->. unfold Qc_eq_bool. destruct (Qc_eq_dec b b); congruence.
Qed.

Lemma Qc_eq_bool_false (a b : Qc) : Qc_eq_bool a b = false <-> a <> b.
Proof.
  unfold Qc_eq_bool. destruct (Qc_eq_dec a b); split; congruence.
Qed.


Lemma at_tmap (f : Qc -> Qc) (t : tensor) (i : nat) :
  at_ (tmap f t) i = option_map f (at_ t i).
Proof. unfold at_, tmap. simpl. apply nth_error_map. Qed.

Lemma length_tmap (f : Qc -> Qc) (t : tensor) :
  length (data (tmap f t)) = length (data t).
Proof. unfold tmap. simpl. apply length_map. Qed.

Lemma length_map2 (f : Qc -> Qc -> Qc) (l1 l2 : list Qc) :
  length l1 = length l2 -> length (map2 f l1 l2) = length l1.
Proof.
  revert l2. induction l1 as [|a l1 IH]; intros [|b l2] Hl; simpl in *;
    try discriminate; auto.
Qed.

Lemma nth_error_map2 (f : Qc -> Qc -> Qc) (l1 l2 : list Qc) (i : nat) :
  nth_error (map2 f l1 l2) i =
  match nth_error l1 i, nth_error l2 i with
  | Some a, Some b => Some (f a b)
  | _, _ => None
  end.
Proof.
  revert l2 i. induction l1 as [|a l1 IH]; intros [|b l2] [|i]; simpl; auto.
  destruct (nth_error l1 i); reflexivity.
Qed.

Lemma shape_eqb_true (s1 s2 : list nat) : shape_eqb s1 s2 = true <-> s1 = s2.
Proof.
  unfold shape_eqb. destruct (list_eq_dec Nat.eq_dec s1 s2); split;
    congruence.
Qed.

Lemma same_shape_true (a b : tensor) :
  same_shape a b = true <->
  shape a = shape b /\ length (data a) = length (data b).
Proof.
  unfold same_shape. rewrite andb_true_iff, shape_eqb_true, Nat.eqb_eq.
  reflexivity.
Qed.

Lemma tzip_Ok (f : Qc -> Qc -> Qc) (a b : tensor) :
  shape a = shape b -> length (data a) = length (data b) ->
  tzip f a b = Ok (mkTensor (shape a) (map2 f (data a) (data b))).
Proof.
  intros Hs Hl. unfold tzip.
  replace (same_shape a b) with true; [reflexivity|].
  symmetry. apply same_shape_true. auto.
Qed.

Lemma tzip_Ok_inv (f : Qc -> Qc -> Qc) (a b c : tensor) :
  tzip f a b = Ok c ->
  shape a = shape b /\ length (data a) = length (data b) /\
  c = mkTensor (shape a) (map2 f (data a) (data b)).
Proof.
  unfold tzip. destruct (same_shape a b) eqn:E; [|discriminate].
  apply same_shape_true in E. destruct E as [Hs Hl].
  intros Hc. injection Hc as <-. auto.
Qed.

(* ------------------------------------------------------------------ *)
(** ** The threshold primitive and the adapters (layer.py) *)

Lemma ge_to_thresholded (c : Qc) (x : tensor) :
  Spec.thresholded c x (ge_to c x).
Proof.
  unfold Spec.thresholded, ge_to. split; [reflexivity|].
  split; [apply length_tmap|].
  intros i v Hv. rewrite at_tmap, Hv. simpl.
  destruct (Qcleb c v) eqn:E.
  - left. split; [apply Qcleb_true; exact E | reflexivity].
  - right. split; [apply Qcleb_false; exact E | reflexivity].
Qed.

Lemma ge_to_binary (c : Qc) (x : tensor) : Spec.binary (ge_to c x).
Proof.
  unfold Spec.binary, ge_to, tmap. simpl. apply Forall_forall.
  intros e He. apply in_map_iff in He. destruct He as [v [<- _]].
  destruct (Qcleb c v); auto.
Qed.

(** C8.  For every input tensor, the forward pass of [val_to_spike]
    returns a tensor of the same shape whose every element is exactly 0
    or 1: 1 where the input element is at least 0.5, 0 where it is
    below. *)
Theorem val_to_spike_forward_binary (x : tensor) :
  Spec.binary (Layer.val_to_spike_forward x) /\
  Spec.thresholded (Q2Qc (1 # 2)) x (Layer.val_to_spike_forward x).
Proof.
  unfold Layer.val_to_spike_forward. split.
  - apply ge_to_binary.
  - apply ge_to_thresholded.
Qed.

Lemma adapter_forward_unfold (layer : Layer.adapter) (x : tensor) :
  Layer.adapter_forward layer x =
  (y <- Layer.adapter_super layer x;; Layer.val_to_spike_apply y).
Proof.
  destruct layer as [f|f|f|f|f|f|f|f]; simpl;
    unfold Layer.MaxPool1d_forward, Layer.MaxPool2d_forward,
           Layer.MaxPool3d_forward, Layer.AvgPool1d_forward,
           Layer.AvgPool2d_forward, Layer.AvgPool3d_forward,
           Layer.Flatten_forward, Layer.Unflatten_forward, Py.fmap;
    try reflexivity; destruct (f x); reflexivity.
Qed.

(** C9.  Each of the eight adapter layers applies [val_to_spike] to what
    the underlying torch operator returns: whenever the operator returns
    a tensor [y] the layer returns [y] thresholded at 0.5, and every
    output the layer returns is such a tensor, with elements 0 or 1 only
    (so an average is binarized again). *)
Theorem adapter_forward_rebinarizes (layer : Layer.adapter) (x : tensor) :
  Layer.adapter_forward layer x =
    (y <- Layer.adapter_super layer x;; Layer.val_to_spike_apply y) /\
  (forall y, Layer.adapter_super layer x = Ok (OTensor y) ->
     Layer.adapter_forward layer x = Ok (Layer.val_to_spike_forward y)) /\
  (forall out, Layer.adapter_forward layer x = Ok out ->
     exists y, Layer.adapter_super layer x = Ok (OTensor y) /\
       Spec.thresholded (Q2Qc (1 # 2)) y out /\ Spec.binary out).
Proof.
  split; [apply adapter_forward_unfold|]. split.
  - intros y Hy. rewrite adapter_forward_unfold, Hy. reflexivity.
  - intros out Hout. rewrite adapter_forward_unfold in Hout.
    inv_bind Hout. destruct a as [y|y idx]; simpl in Hout; [|discriminate].
    injection Hout as <-. exists y. split; [exact Ha|].
    unfold Layer.val_to_spike_forward.
    split; [apply ge_to_thresholded | apply ge_to_binary].
Qed.

(* ------------------------------------------------------------------ *)
(** ** The top-level container (container.py) *)

Section ContainerFacts.

Import Containers.

Context {Enc Snn Dec : Type}
        `{NNModule Enc} `{NNModule Snn} `{NNModule Dec}.

Lemma Container_forward_stages (self : container Enc Snn Dec) (x : tensor) :
  Container_forward self x = Spec.run_stages (Spec.present_stages self) self x.
Proof.
  destruct self as [[e|] [m|] [d|]];
    unfold Container_forward, Spec.present_stages; simpl;
    unfold Spec.encoder_stage, Spec.snn_model_stage, Spec.decoder_stage;
    simpl;
    repeat match goal with
           | |- context [call ?a ?b] =>
               destruct (call a b) as [[? ?]|?]; simpl; try reflexivity
           end;
    reflexivity.
Qed.

(** C10.  A container whose three stages are all [None] returns its input
    unchanged; in general the forward pass runs exactly the stages that
    are not [None], encoder first, then snn_model, then decoder, each on
    the output of the one before (spelled out for a container with all
    three stages and for one with only an encoder and a decoder). *)
Theorem Container_forward_skips_None :
  (forall x : tensor,
     Container_forward (Container_init (Enc:=Enc) (Snn:=Snn) (Dec:=Dec)
                          None None None) x
     = Ok (Container_init None None None, x)) /\
  (forall (self : container Enc Snn Dec) (x : tensor),
     Container_forward self x
     = Spec.run_stages (Spec.present_stages self) self x) /\
  (forall (e : Enc) (m : Snn) (d : Dec) (x : tensor),
     Container_forward (mkContainer (Some e) (Some m) (Some d)) x
     = ('(e', x1) <- call e x;;
        '(m', x2) <- call m x1;;
        '(d', x3) <- call d x2;;
        Ok (mkContainer (Some e') (Some m') (Some d'), x3))) /\
  (forall (e : Enc) (d : Dec) (x : tensor),
     Container_forward (mkContainer (Snn:=Snn) (Some e) None (Some d)) x
     = ('(e', x1) <- call e x;;
        '(d', x3) <- call d x1;;
        Ok (mkContainer (Some e') None (Some d'), x3))).
Proof.
  split; [reflexivity|]. split; [apply Container_forward_stages|]. split.
  - intros e m d x. unfold Container_forward. simpl.
    destruct (call e x) as [[e' x1]|err]; simpl; [|reflexivity].
    destruct (call m x1) as [[m' x2]|err]; simpl; [|reflexivity].
    destruct (call d x2) as [[d' x3]|err]; reflexivity.
  - intros e d x. unfold Container_forward. simpl.
    destruct (call e x) as [[e' x1]|err]; simpl; [|reflexivity].
    destruct (call d x1) as [[d' x3]|err]; reflexivity.
Qed.

End ContainerFacts.

(* ------------------------------------------------------------------ *)
(** ** The temporal container (container.py) *)

Lemma select_slice (x : tensor) (n t : nat) (rest : list nat) :
  shape x = n :: rest -> (t < n)%nat -> select x t = Ok (Spec.slice x t).
Proof.
  intros Hs Ht. unfold select, Spec.slice. rewrite Hs. simpl.
  apply Nat.ltb_lt in Ht. rewrite Ht. reflexivity.
Qed.

Section TemporalFacts.

Import Containers.

Context {M : Type} `{NNModule M}.

Lemma set_module_twice (self : temporal M) (m m' : M) :
  set_module (set_module self m) m' = set_module self m'.
Proof. reflexivity. Qed.

(** The loop with its accumulator against the calls made by hand. *)
Lemma Temporal_loop_manual (x : tensor) (n : nat) (rest : list nat) :
  shape x = n :: rest ->
  forall (ts : list nat) (self : temporal M) (acc : list tensor),
    Forall (fun t => (t < n)%nat) ts ->
    Temporal_loop x ts self acc =
    ('(m, ys) <- Spec.manual_calls (module self) (map (Spec.slice x) ts);;
     Ok (set_module self m, acc ++ ys)).
Proof.
  intros Hs ts. induction ts as [|t ts IH]; intros self acc Hts; simpl.
  - rewrite app_nil_r. destruct self; reflexivity.
  - inversion Hts as [|t' ts' Ht Hts']; subst.
    rewrite (select_slice x n t rest Hs Ht). simpl.
    destruct (call (module self) (Spec.slice x t)) as [[m y]|e]; simpl;
      [|reflexivity].
    rewrite (IH (set_module self m) (acc ++ [y]) Hts'). simpl.
    destruct (Spec.manual_calls m (map (Spec.slice x) ts)) as [[m' ys]|e];
      simpl; [|reflexivity].
    rewrite set_module_twice, <- app_assoc. reflexivity.
Qed.

(** What every call leaves unchanged, a run of calls leaves unchanged. *)
Lemma manual_calls_preserves {A} (f : M -> A) :
  (forall a xa b ya, call a xa = Ok (b, ya) -> f b = f a) ->
  forall xs m mT ys,
    Spec.manual_calls m xs = Ok (mT, ys) -> f mT = f m.
Proof.
  intros Hkeep xs. induction xs as [|x0 xs IH]; intros m mT ys Hrun;
    simpl in Hrun.
  - injection Hrun as <- <-. reflexivity.
  - inv_bind Hrun. destruct a as [m1 y0]. inv_bind Hrun.
    destruct a as [m2 ys']. injection Hrun as <- <-.
    rewrite (IH _ _ _ Ha0). exact (Hkeep _ _ _ _ Ha).
Qed.

Lemma manual_calls_length (xs : list tensor) :
  forall m mT ys,
    Spec.manual_calls m xs = Ok (mT, ys) -> length ys = length xs.
Proof.
  induction xs as [|x0 xs IH]; intros m mT ys Hrun; simpl in Hrun.
  - injection Hrun as <- <-. reflexivity.
  - inv_bind Hrun. destruct a as [m1 y0]. inv_bind Hrun.
    destruct a as [m2 ys']. injection Hrun as <- <-. simpl.
    f_equal. exact (IH _ _ _ Ha0).
Qed.

Lemma seq_below (n : nat) : Forall (fun t => (t < n)%nat) (seq 0 n).
Proof. apply Forall_forall. intros t Ht. apply in_seq in Ht. lia. Qed.

Lemma Temporal_forward_unrolled (self : temporal M) (x : tensor) :
  Temporal_forward self x =
  ('(mT, y) <- Spec.manual_unrolled (module self) x;;
   Ok (Spec.after_process (set_module self mT), y)).
Proof.
  unfold Temporal_forward, Spec.manual_unrolled, shape0.
  destruct (shape x) as [|n rest] eqn:Hs; simpl; [reflexivity|].
  rewrite (Temporal_loop_manual x n rest Hs (seq 0 n) self [] (seq_below n)).
  unfold Spec.unbind.
  destruct (Spec.manual_calls (module self) (map (Spec.slice x) (seq 0 n)))
    as [[mT ys]|e]; simpl; [|reflexivity].
  destruct (stack ys) as [y|e]; simpl; reflexivity.
Qed.

(** C2.  The output of [Temporal.forward] on [x] is the stack of the
    outputs of the inner module called by hand on [x[0]], ...,
    [x[T-1]] in this order from the module's current state, and it fails
    exactly when that fails; this holds whatever the container's flags
    are, in particular for a container just built. *)
Theorem Temporal_forward_is_manual_unrolling :
  (forall (self : temporal M) (x : tensor),
     fmap snd (Temporal_forward self x)
     = fmap snd (Spec.manual_unrolled (module self) x)) /\
  (forall (m : M) (reset_after_process : option bool) (x : tensor),
     fmap snd (Temporal_forward (Temporal_init m reset_after_process) x)
     = (T <- shape0 x;;
        '(_, ys) <- Spec.manual_calls m (Spec.unbind x T);;
        stack ys)).
Proof.
  assert (Hgen : forall (self : temporal M) (x : tensor),
     fmap snd (Temporal_forward self x)
     = fmap snd (Spec.manual_unrolled (module self) x)).
  { intros self x. rewrite Temporal_forward_unrolled. unfold fmap.
    destruct (Spec.manual_unrolled (module self) x) as [[mT y]|e];
      reflexivity. }
  split; [exact Hgen|].
  intros m rap x. rewrite Hgen. simpl.
  unfold Spec.manual_unrolled, fmap.
  destruct (shape0 x) as [T|e]; simpl; [|reflexivity].
  destruct (Spec.manual_calls m (Spec.unbind x T)) as [[mT ys]|e]; simpl;
    [|reflexivity].
  destruct (stack ys); reflexivity.
Qed.

(** No method of the container changes [reset_after_process]. *)
Lemma Temporal_methods_keep_flag (self : temporal M) :
  reset_after_process (Temporal_reset self) = reset_after_process self /\
  reset_after_process (Temporal_start_step self) = reset_after_process self /\
  reset_after_process (Temporal_stop_step self) = reset_after_process self /\
  reset_after_process (Temporal_step_once self) = reset_after_process self /\
  forall x self1 y,
    Temporal_forward self x = Ok (self1, y) ->
    reset_after_process self1 = reset_after_process self.
Proof.
  repeat (split; [reflexivity|]).
  intros x self1 y Hf. rewrite Temporal_forward_unrolled in Hf.
  inv_bind Hf. destruct a as [mT y']. injection Hf as <- <-.
  unfold Spec.after_process. destruct self as [m [|] [|]]; reflexivity.
Qed.

(** C7.  For an inner module with a [reset] method.  A container built
    with [reset_after_process] left out has the flag set, and every
    [forward] of a container whose flag is set resets the inner module
    once the stacked result is there (after the learning hook, when that
    is enabled).  A container built with [reset_after_process = False]
    has the flag cleared, and every [forward] of such a container leaves
    the inner module in the state the last step produced, from which the
    next call goes on.  When neither a call nor the learning hook changes
    what [reset] restores, the state after a resetting [forward] is the
    reset state of the module the container held. *)
Theorem Temporal_forward_reset_after_process
    (reset : M -> M) (Hreset : reset_method = Some reset)
    (m : M) (x : tensor) :
  reset_after_process (Temporal_init m None) = true /\
  reset_after_process (Temporal_init m (Some false)) = false /\
  (forall self : temporal M,
     reset_after_process self = true ->
     Temporal_forward self x =
       ('(mT, y) <- Spec.manual_unrolled (module self) x;;
        Ok (mkTemporal (reset (Spec.after_learning_hook self mT))
                       true (step_after_process self), y))) /\
  (forall self : temporal M,
     reset_after_process self = false ->
     Temporal_forward self x =
       ('(mT, y) <- Spec.manual_unrolled (module self) x;;
        Ok (mkTemporal (Spec.after_learning_hook self mT)
                       false (step_after_process self), y))) /\
  Temporal_forward (Temporal_init m None) x =
    ('(mT, y) <- Spec.manual_unrolled m x;;
     Ok (mkTemporal (reset mT) true false, y)) /\
  Temporal_forward (Temporal_init m (Some false)) x =
    ('(mT, y) <- Spec.manual_unrolled m x;;
     Ok (mkTemporal mT false false, y)) /\
  ((forall a xa b ya, call a xa = Ok (b, ya) -> reset b = reset a) ->
   (forall a, reset (call_if_present step_once_method a) = reset a) ->
   forall self self1 y1,
     reset_after_process self = true ->
     Temporal_forward self x = Ok (self1, y1) ->
     module self1 = reset (module self)).
Proof.
  assert (Htrue : forall self : temporal M,
     reset_after_process self = true ->
     Temporal_forward self x =
       ('(mT, y) <- Spec.manual_unrolled (module self) x;;
        Ok (mkTemporal (reset (Spec.after_learning_hook self mT))
                       true (step_after_process self), y))).
  { intros self Hflag. rewrite Temporal_forward_unrolled.
    destruct (Spec.manual_unrolled (module self) x) as [[mT y]|e]; simpl;
      [|reflexivity].
    destruct self as [m0 rap sap]. simpl in Hflag. subst rap.
    unfold Spec.after_process, Spec.after_learning_hook, Temporal_reset,
      Temporal_step_once. simpl.
    destruct sap; simpl; rewrite Hreset; reflexivity. }
  assert (Hfalse : forall self : temporal M,
     reset_after_process self = false ->
     Temporal_forward self x =
       ('(mT, y) <- Spec.manual_unrolled (module self) x;;
        Ok (mkTemporal (Spec.after_learning_hook self mT)
                       false (step_after_process self), y))).
  { intros self Hflag. rewrite Temporal_forward_unrolled.
    destruct (Spec.manual_unrolled (module self) x) as [[mT y]|e]; simpl;
      [|reflexivity].
    destruct self as [m0 rap sap]. simpl in Hflag. subst rap.
    unfold Spec.after_process, Spec.after_learning_hook,
      Temporal_step_once. simpl.
    destruct sap; reflexivity. }
  split; [reflexivity|]. split; [reflexivity|].
  split; [exact Htrue|]. split; [exact Hfalse|].
  split; [exact (Htrue (Temporal_init m None) eq_refl)|].
  split; [exact (Hfalse (Temporal_init m (Some false)) eq_refl)|].
  intros Hkeep Hhook self self1 y1 Hflag H1.
  rewrite (Htrue self Hflag) in H1. inv_bind H1.
  destruct a as [mT y]. injection H1 as <- <-. simpl.
  unfold Spec.manual_unrolled in Ha. inv_bind Ha. inv_bind Ha.
  destruct a0 as [mT' ys]. inv_bind Ha. injection Ha as <- <-.
  transitivity (reset mT').
  - unfold Spec.after_learning_hook.
    destruct (step_after_process self); [apply Hhook | reflexivity].
  - exact (manual_calls_preserves reset Hkeep _ _ _ _ Ha1).
Qed.

End TemporalFacts.

(* ------------------------------------------------------------------ *)
(** ** Construction and reset (soma.py, layer.py) *)

Lemma Soma_reset_idempotent (n : Soma.soma) :
  Soma.reset (Soma.reset n) = Soma.reset n.
Proof.
  destruct n as [c t th r sf u w]. destruct c; reflexivity.
Qed.

Lemma Soma_reset_set_u (n : Soma.soma) (v : value) :
  Soma.reset (Soma.set_u n v) = Soma.reset n.
Proof.
  destruct n as [c t th r sf u w]. destruct c; reflexivity.
Qed.

Lemma Soma_f_response_reset (exp : Qc -> Qc) (n n' : Soma.soma)
    (h x U : tensor) :
  Soma.f_response exp n h x = Ok (n', U) -> Soma.reset n' = Soma.reset n.
Proof.
  destruct n as [c t th r sf u w]. unfold Soma.f_response. simpl.
  destruct c; intros Hr;
    unfold Soma.RFRSkeleton_f_response, Soma.IF_f_response,
           Soma.LIF_f_response, Soma.QIF_f_response,
           Soma.EIF_f_response, Soma.Izhikevich_f_response in Hr;
    repeat (inv_bind Hr); injection Hr as <- <-; reflexivity.
Qed.

Lemma Soma_forward_reset (exp : Qc -> Qc) (n n' : Soma.soma)
    (x o : tensor) :
  Soma.forward exp n x = Ok (n', o) -> Soma.reset n' = Soma.reset n.
Proof.
  unfold Soma.forward. intros Hf. inv_bind Hf. inv_bind Hf.
  destruct a0 as [n1 u1]. inv_bind Hf. injection Hf as <- <-.
  rewrite Soma_reset_set_u, Soma_reset_set_u.
  rewrite (Soma_f_response_reset _ _ _ _ _ _ Ha0). apply Soma_reset_set_u.
Qed.

Lemma soma_constructed_reset (n0 : Soma.soma) :
  Spec.soma_constructed n0 -> Soma.reset n0 = n0.
Proof.
  intros Hc. destruct Hc;
    unfold Soma.RFRSkeleton_init, Soma.IF_init, Soma.LIF_init,
           Soma.QIF_init, Soma.EIF_init, Soma.Izhikevich_init,
           Soma.RFRSkeleton_init_;
    apply Soma_reset_idempotent.
Qed.

Lemma SRM0Linear_reset_idempotent (l : Layer.srm0) :
  Layer.SRM0Linear_reset (Layer.SRM0Linear_reset l)
  = Layer.SRM0Linear_reset l.
Proof. destruct l. reflexivity. Qed.

Lemma SRM0Linear_forward_reset (l l' : Layer.srm0) (o o' : tensor) :
  Layer.SRM0Linear_forward l o = Ok (l', o') ->
  Layer.SRM0Linear_reset l' = Layer.SRM0Linear_reset l.
Proof.
  unfold Layer.SRM0Linear_forward. intros Hf. repeat (inv_bind Hf).
  injection Hf as <- <-. destruct l. reflexivity.
Qed.

(** C3.  For every neuron of the Response-Firing-Reset family (Izhikevich
    included) and every SRM0Linear layer, after any run of timesteps from
    the constructed object, [reset()] gives back the object as it was
    constructed, so [u], and [w] or [s] and [r], have their initial
    values; and a second [reset()] changes nothing. *)
Theorem reset_restores_initial_state (exp : Qc -> Qc) :
  (forall (n0 n : Soma.soma) (xs ys : list tensor),
     Spec.soma_constructed n0 ->
     Spec.manual_calls (H := Containers.soma_NNModule exp) n0 xs
       = Ok (n, ys) ->
     Soma.reset n = n0 /\
     Soma.reset (Soma.reset n) = Soma.reset n) /\
  (forall (l0 l : Layer.srm0) (xs ys : list tensor),
     Spec.srm0_constructed l0 ->
     Spec.manual_calls (H := Containers.srm0_NNModule) l0 xs = Ok (l, ys) ->
     Layer.SRM0Linear_reset l = l0 /\
     Layer.SRM0Linear_reset (Layer.SRM0Linear_reset l)
       = Layer.SRM0Linear_reset l).
Proof.
  split.
  - intros n0 n xs ys Hc Hrun. split; [|apply Soma_reset_idempotent].
    transitivity (Soma.reset n0); [|exact (soma_constructed_reset n0 Hc)].
    apply (manual_calls_preserves (H := Containers.soma_NNModule exp)
             Soma.reset) with (xs := xs) (ys := ys); [|exact Hrun].
    intros a xa b ya Hcall. exact (Soma_forward_reset _ _ _ _ _ Hcall).
  - intros l0 l xs ys Hc Hrun.
    split; [|apply SRM0Linear_reset_idempotent].
    assert (H0 : Layer.SRM0Linear_reset l0 = l0).
    { destruct Hc. unfold Layer.SRM0Linear_init.
      apply SRM0Linear_reset_idempotent. }
    transitivity (Layer.SRM0Linear_reset l0); [|exact H0].
    apply (manual_calls_preserves (H := Containers.srm0_NNModule)
             Layer.SRM0Linear_reset) with (xs := xs) (ys := ys);
      [|exact Hrun].
    intros a xa b ya Hcall. exact (SRM0Linear_forward_reset _ _ _ _ Hcall).
Qed.

(** The state a constructor or [reset] leaves: floats, not tensors. *)
Lemma soma_constructed_state (n0 : Soma.soma) :
  Spec.soma_constructed n0 ->
  Soma.u n0 = Some (PyFloat (Soma.u_rest n0)) /\
  (forall a b, Soma.class_ n0 = Soma.cIzhikevich a b ->
     Soma.w n0 = Some (PyFloat 0)).
Proof.
  intros Hc. destruct Hc; split; try reflexivity;
    intros a' b' Hcl; try discriminate Hcl; reflexivity.
Qed.

(** The guard of [PFHSkeleton.__init__]. *)
Lemma PFHSkeleton_init_guard (tau_m u_threshold u_rest : option Qc)
    (sf : option (tensor -> tensor)) :
  (default 1 tau_m = 0 ->
   Soma.PFHSkeleton_init tau_m u_threshold u_rest sf = Raise AssertionError)
  /\
  (default 1 tau_m <> 0 ->
   exists self, Soma.PFHSkeleton_init tau_m u_threshold u_rest sf = Ok self
     /\ Soma.pfh_tau_m self = default 1 tau_m).
Proof.
  unfold Soma.PFHSkeleton_init. split; intros Ht.
  - rewrite Ht. reflexivity.
  - apply Qc_eq_bool_false in Ht. rewrite Ht. simpl.
    eexists. split; reflexivity.
Qed.

(** C1, on the code.  [PFHSkeleton] refuses a zero [tau_m], but the
    constructors of [RFRSkeleton], [LIF], [QIF], [EIF] and [SRM0Linear]
    have no such guard: with [tau_m = 0.0] each returns an object that
    holds the zero, and the division by zero is raised only later, by the
    first forward pass. *)
Theorem zero_tau_m_is_accepted (exp : Qc -> Qc) (x : tensor) :
  Soma.PFHSkeleton_init (Some 0) None None None = Raise AssertionError /\
  Soma.tau_m (Soma.RFRSkeleton_init (Some 0) None None None) = 0 /\
  Soma.tau_m (Soma.LIF_init (Some 0) None None None) = 0 /\
  Soma.tau_m (Soma.QIF_init (Some 0) None None None None None) = 0 /\
  Soma.tau_m (Soma.EIF_init (Some 0) None None None None None) = 0 /\
  (forall i o d,
     Layer.tau_m (Layer.SRM0Linear_init i o d (Some 0) None None None) = 0)
  /\
  Soma.forward exp (Soma.RFRSkeleton_init (Some 0) None None None) x
    = Raise ZeroDivisionError /\
  Soma.forward exp (Soma.LIF_init (Some 0) None None None) x
    = Raise ZeroDivisionError /\
  Soma.forward exp (Soma.QIF_init (Some 0) None None None None None) x
    = Raise ZeroDivisionError /\
  Soma.forward exp (Soma.EIF_init (Some 0) None None None None None) x
    = Raise ZeroDivisionError /\
  (forall i o d,
     Layer.SRM0Linear_forward
       (Layer.SRM0Linear_init i o d (Some 0) None None None) x
     = Raise ZeroDivisionError).
Proof.
  repeat split; reflexivity.
Qed.

(* ------------------------------------------------------------------ *)
(** ** Elementwise reading of the tensor operations *)

Lemma like_refl (x : tensor) : like x x.
Proof. split; reflexivity. Qed.

Lemma like_sym (x t : tensor) : like x t -> like t x.
Proof. intros [Hs Hl]. split; congruence. Qed.

Lemma like_trans (x t t' : tensor) : like x t -> like t t' -> like x t'.
Proof. intros [Hs Hl] [Hs' Hl']. split; congruence. Qed.

Lemma like_tmap (f : Qc -> Qc) (x t : tensor) : like x t -> like x (tmap f t).
Proof.
  intros [Hs Hl]. split; [exact Hs|]. rewrite length_tmap. exact Hl.
Qed.

Lemma tzip_like (f : Qc -> Qc -> Qc) (x a b : tensor) :
  like x a -> like x b ->
  exists c, tzip f a b = Ok c /\ like x c /\
            data c = map2 f (data a) (data b).
Proof.
  intros [Hsa Hla] [Hsb Hlb].
  exists (mkTensor (shape a) (map2 f (data a) (data b))).
  split; [apply tzip_Ok; congruence|].
  split; [|reflexivity]. split; simpl; [exact Hsa|].
  rewrite length_map2; congruence.
Qed.

Lemma tzip_Ok_like (f : Qc -> Qc -> Qc) (a b c : tensor) :
  tzip f a b = Ok c ->
  like a b /\ like a c /\ data c = map2 f (data a) (data b).
Proof.
  intros Hz. apply tzip_Ok_inv in Hz. destruct Hz as [Hs [Hl ->]].
  split; [split; congruence|]. split; [|reflexivity].
  split; simpl; [reflexivity|]. apply length_map2. exact Hl.
Qed.

Lemma at_tzip (f : Qc -> Qc -> Qc) (a b c : tensor) (i : nat) :
  tzip f a b = Ok c ->
  at_ c i = match at_ a i, at_ b i with
            | Some p, Some q => Some (f p q)
            | _, _ => None
            end.
Proof.
  intros Hz. apply tzip_Ok_inv in Hz. destruct Hz as [_ [_ ->]].
  unfold at_. simpl. apply nth_error_map2.
Qed.

Lemma like_at (x t : tensor) (i : nat) (v : Qc) :
  like x t -> at_ x i = Some v -> exists e, at_ t i = Some e.
Proof.
  intros [_ Hl] Hx. unfold at_ in *.
  destruct (nth_error (data t) i) as [e|] eqn:E; [exists e; reflexivity|].
  apply nth_error_None in E.
  assert (Hi : (i < length (data x))%nat)
    by (apply nth_error_Some; congruence).
  lia.
Qed.

Lemma like_init_tensor (x : tensor) (v : value) :
  value_like x v -> like x (Soma.init_tensor v x).
Proof.
  destruct v as [q|t]; simpl; intros Hv; [|exact Hv].
  apply like_tmap. unfold ones_like. apply like_tmap. apply like_refl.
Qed.

Lemma at_init_tensor (x : tensor) (v : value) (i : nat) (xi : Qc) :
  at_ x i = Some xi ->
  at_ (Soma.init_tensor v x) i = Spec.value_at v i.
Proof.
  destruct v as [q|t]; simpl; intros Hx; [|reflexivity].
  unfold ones_like. rewrite !at_tmap, Hx. simpl.
  f_equal. apply Qcmult_1_r.
Qed.

Lemma Rectangular_shape_preserving : shape_preserving Surrogate.Rectangular.
Proof.
  intros t. unfold Surrogate.Rectangular. apply like_tmap, like_refl.
Qed.

(* ------------------------------------------------------------------ *)
(** ** The forward pass of the Response-Firing-Reset family (soma.py) *)

Lemma like_spiking (sf : tensor -> tensor) (x t : tensor) :
  shape_preserving sf -> like x t -> like x (sf t).
Proof. intros Hsf Ht. exact (like_trans x t (sf t) Ht (Hsf t)). Qed.

Create HintDb like.
#[local] Hint Resolve like_refl like_tmap like_init_tensor like_spiking : like.

(** Run the next elementwise operation of the goal on tensors like [x]. *)
Ltac zip_next x :=
  match goal with
  | |- context [tzip ?f ?a ?b] =>
      let c := fresh "c" in
      let Hc := fresh "Hc" in
      let Lc := fresh "Lc" in
      destruct (tzip_like f x a b) as [c [Hc [Lc _]]];
      [ auto with like | auto with like | rewrite Hc; simpl ]
  end.

(** The forward pass returns: on an object whose stored values are floats
    or tensors like the input, with a spiking function that keeps shapes,
    a non-zero [tau_m] where the class divides by it and, for [EIF], a
    non-zero [delta_t]. *)
Lemma Soma_forward_total (exp : Qc -> Qc) (n : Soma.soma) (x : tensor)
    (u0 : value) :
  Soma.u n = Some u0 -> value_like x u0 ->
  shape_preserving (Soma.spiking_function n) ->
  (Spec.divides_by_tau_m (Soma.class_ n) = true -> Soma.tau_m n <> 0) ->
  (forall a b, Soma.class_ n = Soma.cIzhikevich a b ->
     exists w0, Soma.w n = Some w0 /\ value_like x w0) ->
  (forall u_t delta_t, Soma.class_ n = Soma.cEIF u_t delta_t ->
     delta_t <> 0) ->
  exists n' o h',
    Soma.forward exp n x = Ok (n', o) /\ like x o /\
    Soma.u n' = Some (PyTensor h') /\ like x h'.
Proof.
  intros Hu Hlu Hsf Htau Hw Hdt.
  destruct n as [c t th r sf u w]. simpl in *. subst u.
  assert (Hh : like x (Soma.init_tensor u0 x)) by auto with like.
  unfold Soma.forward, Soma.f_response, Soma.f_firing, Soma.f_reset.
  simpl.
  destruct c as [| | |a0 uc|ut dt|a b]; simpl in *;
    try (specialize (Htau eq_refl); apply Qc_eq_bool_false in Htau);
    unfold Soma.RFRSkeleton_f_response, Soma.IF_f_response,
           Soma.LIF_f_response, Soma.QIF_f_response,
           Soma.EIF_f_response, Soma.Izhikevich_f_response,
           float_div, div_float, add, sub, mul; simpl;
    rewrite ?Htau; simpl.
  - repeat zip_next x.
    eexists _, _, _. split; [reflexivity|]. simpl. auto with like.
  - repeat zip_next x.
    eexists _, _, _. split; [reflexivity|]. simpl. auto with like.
  - repeat zip_next x.
    eexists _, _, _. split; [reflexivity|]. simpl. auto with like.
  - repeat zip_next x.
    eexists _, _, _. split; [reflexivity|]. simpl. auto with like.
  - specialize (Hdt ut dt eq_refl). apply Qc_eq_bool_false in Hdt.
    rewrite Hdt. simpl. repeat zip_next x.
    eexists _, _, _. split; [reflexivity|]. simpl. auto with like.
  - destruct (Hw a b eq_refl) as [w0 [-> Hlw]]. simpl.
    assert (Hwl : like x (Soma.init_tensor w0 (Soma.init_tensor u0 x))).
    { destruct w0 as [q|tw]; [|exact Hlw].
      apply (like_trans x (Soma.init_tensor u0 x)); [exact Hh|].
      apply like_init_tensor. exact I. }
    repeat zip_next x.
    eexists _, _, _. split; [reflexivity|]. simpl. auto with like.
Qed.


(** Goals [like a b] from the [like] facts at hand. *)
Ltac like_solve :=
  unfold like in *; simpl in *; rewrite ?length_map in *;
  repeat match goal with H : _ /\ _ |- _ => destruct H end;
  try split; congruence.

(** C5.  A forward pass of an Izhikevich neuron that holds [u0] and [w0]
    and receives [x] returns when the stored values are floats or tensors
    like [x].  Whenever it returns: both stored values are read through
    [init_tensor] (a float stands for a tensor holding it everywhere);
    the recovery variable stored afterwards is
    [w_new = w + a*(b*U_prev - w)]; and the potential handed to the
    firing and reset stages is
    [U_prev + 0.04*U_prev^2 + 5*U_prev + 140 - w_new + X], with the
    updated [w_new], element by element. *)
Theorem Izhikevich_forward_update (exp : Qc -> Qc) (n : Soma.soma)
    (a b : Qc) (x : tensor) :
  Soma.class_ n = Soma.cIzhikevich a b ->
  (forall u0 w0 : value,
     Soma.u n = Some u0 -> Soma.w n = Some w0 ->
     value_like x u0 -> value_like x w0 ->
     shape_preserving (Soma.spiking_function n) ->
     exists n' o, Soma.forward exp n x = Ok (n', o)) /\
  forall (n' : Soma.soma) (o : tensor),
  Soma.forward exp n x = Ok (n', o) ->
  exists (u0 w0 : value) (U wn h' : tensor),
    Soma.u n = Some u0 /\ Soma.w n = Some w0 /\
    Soma.w n' = Some (PyTensor wn) /\
    Soma.u n' = Some (PyTensor h') /\
    o = Soma.f_firing n U /\ Soma.f_reset n U o = Ok h' /\
    like x wn /\ like x U /\
    forall i xi, at_ x i = Some xi ->
      exists hi wi,
        Spec.value_at u0 i = Some hi /\ Spec.value_at w0 i = Some wi /\
        at_ wn i = Some (wi + a * (b * hi - wi)) /\
        at_ U i = Some (hi + Q2Qc (4 # 100) * hi * hi + Q2Qc 5 * hi
                        + Q2Qc 140 - (wi + a * (b * hi - wi)) + xi).
Proof.
  intros Hc. split.
  { intros u0 w0 Hu Hw Hlu Hlw Hsf.
    destruct (Soma_forward_total exp n x u0 Hu Hlu Hsf)
      as (n' & o & _ & Hf & _).
    - rewrite Hc. discriminate.
    - intros a' b' _. exists w0. split; assumption.
    - intros u_t delta_t Hcl. rewrite Hc in Hcl. discriminate Hcl.
    - exists n', o. exact Hf. }
  intros n' o Hf. unfold Soma.forward in Hf.
  inv_bind Hf. rename a0 into u0. inv_bind Hf. destruct a0 as [n1 U].
  inv_bind Hf. rename a0 into h'. injection Hf as <- <-.
  unfold Soma.f_response in Ha0. simpl in Ha0. rewrite Hc in Ha0.
  unfold Soma.Izhikevich_f_response in Ha0. simpl in Ha0.
  inv_bind Ha0. rename a0 into w0.
  inv_bind Ha0. rename a0 into d.
  inv_bind Ha0. rename a0 into w1.
  inv_bind Ha0. rename a0 into q.
  inv_bind Ha0. rename a0 into p.
  inv_bind Ha0. rename a0 into m.
  inv_bind Ha0. rename a0 into du.
  inv_bind Ha0. rename a0 into U'.
  injection Ha0 as <- <-.
  pose proof (tzip_Ok_like _ _ _ _ Ha3) as [L3 [L3' _]].
  pose proof (tzip_Ok_like _ _ _ _ Ha4) as [L4 [L4' _]].
  pose proof (tzip_Ok_like _ _ _ _ Ha5) as [L5 [L5' _]].
  pose proof (tzip_Ok_like _ _ _ _ Ha6) as [L6 [L6' _]].
  pose proof (tzip_Ok_like _ _ _ _ Ha7) as [L7 [L7' _]].
  pose proof (tzip_Ok_like _ _ _ _ Ha8) as [L8 [L8' _]].
  pose proof (tzip_Ok_like _ _ _ _ Ha9) as [L9 [L9' _]].
  assert (Hh : like x (Soma.init_tensor u0 x)) by like_solve.
  assert (Hw : like x (Soma.init_tensor w0 (Soma.init_tensor u0 x)))
    by like_solve.
  exists u0, w0, U', w1, h'.
  destruct (Soma.u n) as [u0'|] eqn:Eu; [|discriminate Ha].
  destruct (Soma.w n) as [w0'|] eqn:Ew; [|discriminate Ha2].
  injection Ha as ->. injection Ha2 as ->.
  assert (Hw1 : like x w1) by like_solve.
  assert (HU : like x U') by like_solve.
  split; [reflexivity|]. split; [reflexivity|].
  split; [reflexivity|]. split; [reflexivity|].
  split; [destruct n; reflexivity|]. split; [destruct n; exact Ha1|].
  split; [exact Hw1|]. split; [exact HU|].
  intros i xi Hx.
    destruct (like_at _ _ i _ Hh Hx) as [hi Hhi].
    destruct (like_at _ _ i _ Hw Hx) as [wi Hwi].
    exists hi, wi.
    rewrite <- (at_init_tensor _ u0 i _ Hx), Hhi.
    rewrite <- (at_init_tensor _ w0 i _ Hhi), Hwi.
    split; [reflexivity|]. split; [reflexivity|]. split.
    + rewrite (at_tzip _ _ _ _ i Ha4), at_tmap, (at_tzip _ _ _ _ i Ha3), at_tmap, Hhi, Hwi.
      reflexivity.
    + rewrite (at_tzip _ _ _ _ i Ha9), (at_tzip _ _ _ _ i Ha8), (at_tzip _ _ _ _ i Ha7), at_tmap,
        (at_tzip _ _ _ _ i Ha6), (at_tzip _ _ _ _ i Ha5), !at_tmap,
        (at_tzip _ _ _ _ i Ha4), at_tmap, (at_tzip _ _ _ _ i Ha3), at_tmap, Hhi, Hwi, Hx.
      simpl. f_equal. ring.
Qed.

(* ------------------------------------------------------------------ *)
(** ** The IF neuron under a constant input (soma.py) *)

Lemma Qc_sub_lt_0 (a b : Qc) : a - b < 0 <-> a < b.
Proof.
  rewrite (Qclt_minus_iff a b), (Qclt_minus_iff (a - b) 0).
  replace (0 + - (a - b)) with (b + - a) by ring. reflexivity.
Qed.

Lemma Qc_sub_ge_0 (a b : Qc) : 0 <= a - b <-> b <= a.
Proof. symmetry. apply Qcle_minus_iff. Qed.

Lemma heaviside_below (v : Qc) : v < 0 -> Surrogate.heaviside v = 0.
Proof.
  intros Hv. unfold Surrogate.heaviside.
  apply Qcleb_false in Hv. rewrite Hv. reflexivity.
Qed.

Lemma heaviside_above (v : Qc) : 0 <= v -> Surrogate.heaviside v = 1.
Proof.
  intros Hv. unfold Surrogate.heaviside.
  apply Qcleb_true in Hv. rewrite Hv. reflexivity.
Qed.

Lemma IF_fire_below (th u c : Qc) : u + c < th -> Spec.IF_fire th u c = 0.
Proof. intros H. apply heaviside_below, Qc_sub_lt_0. exact H. Qed.

Lemma IF_fire_above (th u c : Qc) : th <= u + c -> Spec.IF_fire th u c = 1.
Proof. intros H. apply heaviside_above, Qc_sub_ge_0. exact H. Qed.

Lemma IF_next_below (th ur u c : Qc) :
  u + c < th -> Spec.IF_next th ur u c = u + c.
Proof. intros H. unfold Spec.IF_next. rewrite IF_fire_below by exact H. ring. Qed.

Lemma IF_next_above (th ur u c : Qc) :
  th <= u + c -> Spec.IF_next th ur u c = ur.
Proof. intros H. unfold Spec.IF_next. rewrite IF_fire_above by exact H. ring. Qed.

Lemma IF_potential_last (th ur c : Qc) (k : nat) :
  forall u, Spec.IF_potential th ur c u (S k)
            = Spec.IF_next th ur (Spec.IF_potential th ur c u k) c.
Proof.
  induction k as [|k IH]; intros u; [reflexivity|].
  change (Spec.IF_potential th ur c u (S (S k)))
    with (Spec.IF_potential th ur c (Spec.IF_next th ur u c) (S k)).
  rewrite IH. reflexivity.
Qed.

Lemma times_increasing (c : Qc) (j k : nat) :
  0 < c -> (j <= k)%nat -> Spec.times j c <= Spec.times k c.
Proof.
  intros Hc Hjk. induction Hjk as [|k Hjk IH]; [apply Qcle_refl|].
  simpl. apply Qcle_trans with (Spec.times k c); [exact IH|].
  rewrite <- (Qcplus_0_r (Spec.times k c)) at 1.
  apply Qcplus_le_compat; [apply Qcle_refl | apply Qclt_le_weak; exact Hc].
Qed.

(** Below the threshold the potential grows by [c] at every step. *)
Lemma IF_potential_below (th ur c : Qc) (k : nat) :
  0 < c -> ur + Spec.times k c < th ->
  Spec.IF_potential th ur c ur k = ur + Spec.times k c.
Proof.
  intros Hc. induction k as [|k IH]; intros Hk.
  - simpl. ring.
  - rewrite IF_potential_last.
    assert (Hk' : ur + Spec.times k c < th).
    { apply Qcle_lt_trans with (ur + Spec.times (S k) c); [|exact Hk].
      apply Qcplus_le_compat; [apply Qcle_refl|].
      apply times_increasing; [exact Hc | lia]. }
    rewrite (IH Hk'). simpl in Hk.
    rewrite IF_next_below.
    + simpl. ring.
    + replace (ur + Spec.times k c + c) with (ur + (Spec.times k c + c))
        by ring. exact Hk.
Qed.
(** Read index [i] of the results of the elementwise operations at hand. *)
Ltac at_simpl i :=
  repeat match goal with
         | H : tzip _ _ _ = Ok ?c |- context [at_ ?c i] =>
             rewrite (at_tzip _ _ _ _ i H)
         | |- context [at_ (tmap _ _) i] => rewrite at_tmap
         end.

Lemma IF_forward_elementwise (exp : Qc -> Qc) (n : Soma.soma) (x : tensor)
    (u0 : value) :
  Soma.class_ n = Soma.cIF ->
  Soma.spiking_function n = Surrogate.Rectangular ->
  Soma.u n = Some u0 -> value_like x u0 ->
  exists n' o h',
    Soma.forward exp n x = Ok (n', o) /\
    Soma.class_ n' = Soma.cIF /\
    Soma.spiking_function n' = Surrogate.Rectangular /\
    Soma.u_threshold n' = Soma.u_threshold n /\
    Soma.u_rest n' = Soma.u_rest n /\
    Soma.u n' = Some (PyTensor h') /\ like x h' /\ like x o /\
    forall i c ui, at_ x i = Some c -> Spec.value_at u0 i = Some ui ->
      at_ o i = Some (Spec.IF_fire (Soma.u_threshold n) ui c) /\
      at_ h' i = Some (Spec.IF_next (Soma.u_threshold n) (Soma.u_rest n) ui c).
Proof.
  intros Hc Hsf Hu Hlu.
  destruct n as [cl t th r sf u w]. simpl in *. subst cl sf u.
  assert (Hh : like x (Soma.init_tensor u0 x)) by auto with like.
  pose proof Rectangular_shape_preserving as HR.
  unfold Soma.forward, Soma.f_response, Soma.f_firing, Soma.f_reset,
    Soma.IF_f_response, add, mul. simpl.
  repeat zip_next x.
  eexists _, _, _. split; [reflexivity|]. simpl.
  repeat (split; [solve [reflexivity | auto with like]|]).
  intros i c' ui Hx Hui.
  rewrite <- (at_init_tensor x u0 i c' Hx) in Hui.
  unfold Surrogate.Rectangular in *. at_simpl i. rewrite Hui, Hx. simpl.
  split; reflexivity.
Qed.

Lemma IF_run (exp : Qc -> Qc) (x : tensor) (k : nat) :
  forall (n : Soma.soma) (u0 : value),
    Soma.class_ n = Soma.cIF ->
    Soma.spiking_function n = Surrogate.Rectangular ->
    Soma.u n = Some u0 -> value_like x u0 ->
    exists nk ys uk,
      Spec.manual_calls (H := Containers.soma_NNModule exp) n (repeat x k)
        = Ok (nk, ys) /\
      length ys = k /\ Soma.u nk = Some uk /\
      forall i c ui, at_ x i = Some c -> Spec.value_at u0 i = Some ui ->
        Spec.value_at uk i
          = Some (Spec.IF_potential (Soma.u_threshold n) (Soma.u_rest n) c ui k)
        /\
        forall j, (j < k)%nat ->
          exists y, nth_error ys j = Some y /\
            at_ y i = Some (Spec.IF_fire (Soma.u_threshold n)
                              (Spec.IF_potential (Soma.u_threshold n)
                                 (Soma.u_rest n) c ui j) c).
Proof.
  induction k as [|k IH]; intros n u0 Hc Hsf Hu Hlu.
  - exists n, [], u0. simpl. repeat (split; [reflexivity|]).
    split; [exact Hu|]. intros i c ui Hx Hui. split; [exact Hui|].
    intros j Hj. lia.
  - destruct (IF_forward_elementwise exp n x u0 Hc Hsf Hu Hlu)
      as (n1 & o & h1 & Hf & Hc1 & Hsf1 & Hth & Hur & Hu1 & Lh & Lo & He).
    destruct (IH n1 (PyTensor h1) Hc1 Hsf1 Hu1 Lh)
      as (nk & ys & uk & Hrun & Hlen & Huk & Hk).
    exists nk, (o :: ys), uk. simpl.
    change (Containers.call n x) with (Soma.forward exp n x).
    rewrite Hf. simpl. rewrite Hrun. simpl.
    split; [reflexivity|]. split; [congruence|]. split; [exact Huk|].
    intros i c ui Hx Hui.
    destruct (He i c ui Hx Hui) as [Ho Hh].
    destruct (Hk i c _ Hx Hh) as [Hpot Hout].
    rewrite Hth, Hur in Hpot, Hout.
    split; [exact Hpot|].
    intros [|j] Hj.
    + exists o. split; [reflexivity | exact Ho].
    + apply Hout. lia.
Qed.

Lemma times_below (th ur c : Qc) (j k : nat) :
  0 < c -> (j <= k)%nat -> ur + Spec.times k c < th ->
  ur + Spec.times j c < th.
Proof.
  intros Hc Hjk Hk.
  apply Qcle_lt_trans with (ur + Spec.times k c); [|exact Hk].
  apply Qcplus_le_compat; [apply Qcle_refl|].
  apply times_increasing; assumption.
Qed.

(** No spike on the way to a potential still below the threshold. *)
Lemma IF_fire_quiet (th ur c : Qc) (j k : nat) :
  0 < c -> (j < k)%nat -> ur + Spec.times k c < th ->
  Spec.IF_fire th (Spec.IF_potential th ur c ur j) c = 0.
Proof.
  intros Hc Hjk Hk.
  rewrite IF_potential_below;
    [|exact Hc | apply (times_below th ur c j k Hc); [lia | exact Hk]].
  apply IF_fire_below.
  replace (ur + Spec.times j c + c) with (ur + Spec.times (S j) c)
    by (simpl; ring).
  apply (times_below th ur c (S j) k Hc); [lia | exact Hk].
Qed.

(** C6.  An IF neuron in its resting state is fed the same input [x] for
    [k] steps.  The run returns, and for every element of the input that
    is a positive constant [c]: as long as [u_rest + k*c] is below the
    threshold the stored potential after [k] steps is exactly
    [u_rest + k*c], one more [c] at every step, and every output so far
    is 0; at the first step [k] where [u_rest + k*c] meets or exceeds
    the threshold the output is 1 and the stored potential is back at
    [u_rest]. *)
Theorem IF_constant_input_accumulates (exp : Qc -> Qc) (n0 : Soma.soma)
    (x : tensor) (k : nat) :
  Soma.class_ n0 = Soma.cIF ->
  Soma.spiking_function n0 = Surrogate.Rectangular ->
  Soma.u n0 = Some (PyFloat (Soma.u_rest n0)) ->
  Soma.u_rest n0 < Soma.u_threshold n0 ->
  exists nk ys uk,
    Spec.manual_calls (H := Containers.soma_NNModule exp) n0 (repeat x k)
      = Ok (nk, ys) /\
    length ys = k /\ Soma.u nk = Some uk /\
    forall i c, at_ x i = Some c -> 0 < c ->
      (Soma.u_rest n0 + Spec.times k c < Soma.u_threshold n0 ->
         Spec.value_at uk i = Some (Soma.u_rest n0 + Spec.times k c) /\
         forall j y, nth_error ys j = Some y -> at_ y i = Some 0)
      /\
      (forall k', k = S k' ->
         Soma.u_rest n0 + Spec.times k' c < Soma.u_threshold n0 ->
         Soma.u_threshold n0 <= Soma.u_rest n0 + Spec.times k c ->
         Spec.value_at uk i = Some (Soma.u_rest n0) /\
         (forall j y, (j < k')%nat -> nth_error ys j = Some y ->
            at_ y i = Some 0) /\
         exists y, nth_error ys k' = Some y /\ at_ y i = Some 1).
Proof.
  intros Hcl Hsf Hu _.
  destruct (IF_run exp x k n0 (PyFloat (Soma.u_rest n0)) Hcl Hsf Hu I)
    as (nk & ys & uk & Hrun & Hlen & Huk & Hk).
  exists nk, ys, uk. repeat (split; [assumption|]).
  intros i c Hx Hc.
  destruct (Hk i c (Soma.u_rest n0) Hx eq_refl) as [Hpot Hout].
  set (th := Soma.u_threshold n0) in *. set (ur := Soma.u_rest n0) in *.
  split.
  - intros Hbelow. split.
    + rewrite Hpot. f_equal. apply IF_potential_below; assumption.
    + intros j y Hy.
      assert (Hj : (j < k)%nat)
        by (rewrite <- Hlen; apply nth_error_Some; congruence).
      destruct (Hout j Hj) as [y' [Hy' Hat]].
      assert (y' = y) by congruence. subst y'.
      rewrite Hat. f_equal. apply (IF_fire_quiet th ur c j k); assumption.
  - intros k' -> Hbelow Habove. simpl in Habove.
    assert (Hp : Spec.IF_potential th ur c ur k' = ur + Spec.times k' c)
      by (apply IF_potential_below; assumption).
    split; [|split].
    + rewrite Hpot, IF_potential_last, Hp. f_equal.
      apply IF_next_above.
      replace (ur + Spec.times k' c + c) with (ur + (Spec.times k' c + c))
        by ring. exact Habove.
    + intros j y Hj Hy.
      destruct (Hout j) as [y' [Hy' Hat]]; [lia|].
      assert (y' = y) by congruence. subst y'.
      rewrite Hat. f_equal. apply (IF_fire_quiet th ur c j k'); assumption.
    + destruct (Hout k') as [y [Hy Hat]]; [lia|].
      exists y. split; [exact Hy|]. rewrite Hat, Hp. f_equal.
      apply IF_fire_above.
      replace (ur + Spec.times k' c + c) with (ur + (Spec.times k' c + c))
        by ring. exact Habove.
Qed.

(* ------------------------------------------------------------------ *)
(** ** The SRM0Linear layer (layer.py) *)

Lemma length_rows (k n : nat) (l : list Qc) : length (rows k n l) = n.
Proof.
  revert l. induction n as [|n IH]; intros l; simpl; [reflexivity|].
  rewrite IH. reflexivity.
Qed.

Lemma length_flat_map_const {A : Type} (f : A -> list Qc) (m : nat)
    (l : list A) :
  (forall a, length (f a) = m) ->
  length (flat_map f l) = (length l * m)%nat.
Proof.
  intros Hf. induction l as [|a l IH]; simpl; [reflexivity|].
  rewrite length_app, IH, Hf. reflexivity.
Qed.

(** [linear] returns when the last axis of the input has the length of
    the rows of the weight. *)
Lemma linear_Ok (input weight : tensor) (out_f in_f : nat)
    (lead : list nat) :
  shape weight = [out_f; in_f] -> shape input = lead ++ [in_f] ->
  exists x, linear input weight = Ok x /\
    shape x = lead ++ [out_f] /\
    length (data x) = (numel (rev lead) * out_f)%nat.
Proof.
  intros Hw Hi. unfold linear. rewrite Hw, Hi, rev_app_distr. simpl.
  rewrite Nat.eqb_refl. eexists. split; [reflexivity|]. simpl.
  rewrite rev_involutive. split; [reflexivity|].
  rewrite (length_flat_map_const _ out_f).
  - rewrite length_rows. reflexivity.
  - intros a. rewrite length_map. apply length_rows.
Qed.

(** The forward pass of an SRM0Linear layer returns: with a non-zero
    [tau_m], an input whose last axis has [in_features] elements, stored
    values that are floats or tensors of the matching shapes, and a
    spiking function that keeps shapes. *)
Lemma SRM0Linear_forward_total (l : Layer.srm0) (o : tensor)
    (lead : list nat) (s0 r0 : value) :
  Layer.tau_m l <> 0 ->
  shape (Layer.weight l) = [Layer.out_features l; Layer.in_features l] ->
  shape o = lead ++ [Layer.in_features l] ->
  Layer.s l = Some s0 -> value_like o s0 ->
  Layer.r l = Some r0 ->
  match r0 with
  | PyFloat _ => True
  | PyTensor t =>
      shape t = lead ++ [Layer.out_features l] /\
      length (data t) = (numel (rev lead) * Layer.out_features l)%nat
  end ->
  shape_preserving (Layer.spiking_function l) ->
  exists l1 out1,
    Layer.SRM0Linear_forward l o = Ok (l1, out1) /\
    shape out1 = lead ++ [Layer.out_features l].
Proof.
  intros Htau Hw Ho Hs Hls Hr Hlr Hsf.
  destruct l as [i_f o_f wt t th ur sf s r]. simpl in *. subst s r.
  apply Qc_eq_bool_false in Htau.
  unfold Layer.SRM0Linear_forward, Layer.f_synapse_response,
    Layer.f_synapse_sum, Layer.f_response, Layer.f_firing, Layer.f_reset,
    float_div, add, mul. simpl. rewrite Htau. simpl.
  zip_next o.
  assert (Hc' : shape c = lead ++ [i_f]) by (destruct Lc; congruence).
  destruct (linear_Ok c wt o_f i_f lead Hw Hc') as [x [Hx [Hsx Hlx]]].
  rewrite Hx. simpl.
  assert (Hr0 : value_like x r0).
  { destruct r0 as [q|tr]; [exact I|]. destruct Hlr as [H1 H2].
    split; congruence. }
  zip_next x.
  eexists _, _. split; [reflexivity|].
  destruct (Hsf (tmap (fun e => e - th) (tmap (Qcplus ur) c0))) as [H1 _].
  rewrite H1. simpl. destruct Lc0 as [H2 _]. congruence.
Qed.

Lemma SRM0Linear_forward_inv (l l1 : Layer.srm0) (o out1 : tensor) :
  Layer.SRM0Linear_forward l o = Ok (l1, out1) ->
  exists s0 r0 s1 x U,
    Layer.s l = Some s0 /\ Layer.r l = Some r0 /\
    Layer.f_synapse_response l (Soma.init_tensor s0 o) o = Ok s1 /\
    Layer.f_synapse_sum l (Layer.weight l) s1 = Ok x /\
    Layer.f_response l (Soma.init_tensor r0 x) x = Ok U /\
    out1 = Layer.f_firing l U /\
    l1 = Layer.mkSRM0 (Layer.in_features l) (Layer.out_features l)
           (Layer.weight l) (Layer.tau_m l) (Layer.u_threshold l)
           (Layer.u_rest l) (Layer.spiking_function l)
           (Some (PyTensor s1))
           (Some (PyTensor (Layer.f_reset l U out1))).
Proof.
  unfold Layer.SRM0Linear_forward. intros Hf.
  inv_bind Hf. rename a into s0. inv_bind Hf. rename a into s1.
  inv_bind Hf. rename a into x. inv_bind Hf. rename a into r0.
  inv_bind Hf. rename a into U. injection Hf as <- <-.
  exists s0, r0, s1, x, U.
  destruct l as [i_f o_f wt t th ur sf s r]. simpl in *.
  destruct s as [s0'|]; [|discriminate Ha].
  destruct r as [r0'|]; [|discriminate Ha2].
  injection Ha as ->. injection Ha2 as ->.
  repeat (split; [first [reflexivity | assumption]|]). reflexivity.
Qed.

(** C4.  A forward pass of an SRM0Linear layer returns under the
    conditions of [SRM0Linear_forward_total], and whenever it returns the
    stored refractory state is [1 - O], element by element.  Hence in
    the next forward pass, for every unit that has just fired ([O = 1]):
    [R] is 0, the potential is [u_rest + X*0 = u_rest] whatever the
    synaptic input [X] is, and with the default spiking function and
    [u_rest] below [u_threshold] the unit does not fire. *)
Theorem SRM0Linear_refractory (l : Layer.srm0) (o : tensor) :
  (forall (lead : list nat) (s0 r0 : value),
     Layer.tau_m l <> 0 ->
     shape (Layer.weight l) = [Layer.out_features l; Layer.in_features l] ->
     shape o = lead ++ [Layer.in_features l] ->
     Layer.s l = Some s0 -> value_like o s0 ->
     Layer.r l = Some r0 ->
     match r0 with
     | PyFloat _ => True
     | PyTensor t =>
         shape t = lead ++ [Layer.out_features l] /\
         length (data t) = (numel (rev lead) * Layer.out_features l)%nat
     end ->
     shape_preserving (Layer.spiking_function l) ->
     exists l1 out1, Layer.SRM0Linear_forward l o = Ok (l1, out1)) /\
  forall (l1 : Layer.srm0) (out1 : tensor),
  Layer.SRM0Linear_forward l o = Ok (l1, out1) ->
  Layer.r l1 = Some (PyTensor (tmap (fun e => 1 - e) out1)) /\
  (forall i e, at_ out1 i = Some e ->
     exists R, Layer.r l1 = Some R /\ Spec.value_at R i = Some (1 - e)) /\
  forall (o2 : tensor) (l2 : Layer.srm0) (out2 : tensor),
    Layer.SRM0Linear_forward l1 o2 = Ok (l2, out2) ->
    exists R X U,
      Layer.r l1 = Some (PyTensor R) /\
      Layer.f_response l1 R X = Ok U /\
      out2 = Layer.f_firing l1 U /\
      forall i, at_ out1 i = Some 1 ->
        exists Xi,
          at_ X i = Some Xi /\
          at_ R i = Some 0 /\
          at_ U i = Some (Layer.u_rest l + Xi * 0) /\
          at_ U i = Some (Layer.u_rest l) /\
          (Layer.spiking_function l = Surrogate.Rectangular ->
           Layer.u_rest l < Layer.u_threshold l ->
           at_ out2 i = Some 0).
Proof.
  split.
  { intros lead s0 r0 Htau Hw Ho Hs Hls Hr Hlr Hsf.
    destruct (SRM0Linear_forward_total l o lead s0 r0
                Htau Hw Ho Hs Hls Hr Hlr Hsf) as (l1 & out1 & Hf & _).
    exists l1, out1. exact Hf. }
  intros l1 out1 Hf.
  destruct (SRM0Linear_forward_inv l l1 o out1 Hf)
    as (s0 & r0 & s1 & x & U & Hs & Hr & Hs1 & Hx & HU & Ho & Hl1).
  assert (Hr1 : Layer.r l1 = Some (PyTensor (tmap (fun e => 1 - e) out1))).
  { rewrite Hl1. reflexivity. }
  split; [exact Hr1|]. split.
  - intros i e He. eexists. split; [exact Hr1|]. simpl.
    rewrite at_tmap, He. reflexivity.
  - intros o2 l2 out2 Hf2.
    destruct (SRM0Linear_forward_inv l1 l2 o2 out2 Hf2)
      as (s0' & r0' & s2 & X & U2 & Hs' & Hr' & Hs2 & HX & HU2 & Ho2 & Hl2).
    rewrite Hr1 in Hr'. injection Hr' as <-. simpl in HU2.
    exists (tmap (fun e => 1 - e) out1), X, U2.
    split; [exact Hr1|]. split; [exact HU2|]. split; [exact Ho2|].
    intros i Hfired.
    unfold Layer.f_response in HU2. inv_bind HU2. injection HU2 as <-.
    pose proof (tzip_Ok_like _ _ _ _ Ha) as [LX _].
    assert (HR : at_ (tmap (fun e => 1 - e) out1) i = Some 0).
    { rewrite at_tmap, Hfired. reflexivity. }
    destruct (like_at _ _ i 0 (like_sym _ _ LX) HR) as [Xi HXi].
    assert (HUi : at_ (tmap (Qcplus (Layer.u_rest l1)) a) i
                  = Some (Layer.u_rest l + Xi * 0)).
    { rewrite at_tmap, (at_tzip _ _ _ _ i Ha), HXi, HR. simpl.
      rewrite Hl1. reflexivity. }
    exists Xi. split; [exact HXi|]. split; [exact HR|].
    split; [exact HUi|]. split.
    + rewrite HUi. f_equal. ring.
    + intros Hsf Hlt. rewrite Ho2. unfold Layer.f_firing.
      replace (Layer.spiking_function l1) with Surrogate.Rectangular
        by (rewrite Hl1; simpl; congruence).
      unfold Surrogate.Rectangular. rewrite at_tmap, at_tmap, HUi. simpl.
      f_equal. apply heaviside_below. apply Qc_sub_lt_0.
      replace (Layer.u_threshold l1) with (Layer.u_threshold l)
        by (rewrite Hl1; reflexivity).
      replace (Layer.u_rest l + Xi * 0) with (Layer.u_rest l) by ring.
      exact Hlt.
Qed.

(* ------------------------------------------------------------------ *)
(** ** The theorems at concrete inputs *)

(** An IF neuron in a default container, two steps of 1/2: the second
    step fires, and after [forward] the neuron is as constructed. *)
Lemma Temporal_forward_reset_after_process_witness :
  exists self1 y1,
    Containers.Temporal_forward
      (H := Containers.soma_NNModule exp_unused)
      (Containers.Temporal_init if_neuron None) two_halves
    = Ok (self1, y1) /\
    data y1 = [0; 1] /\
    Containers.module self1 = if_neuron.
Proof.
  eexists _, _. split; [reflexivity|]. split; [reflexivity|].
  destruct (Temporal_forward_reset_after_process
              (H := Containers.soma_NNModule exp_unused)
              Soma.reset eq_refl if_neuron two_halves)
    as (_ & _ & _ & _ & _ & _ & Hinit).
  refine (Hinit _ _ (Containers.Temporal_init if_neuron None) _ _
            eq_refl eq_refl).
  - intros a xa b ya Hcall. exact (Soma_forward_reset _ _ _ _ _ Hcall).
  - intros a. reflexivity.
Defined.

(** After two steps the LIF neuron and the SRM0Linear layer hold tensors;
    [reset] gives back the constructed objects. *)
Lemma reset_restores_initial_state_witness :
  exists n ys l zs,
    Spec.manual_calls (H := Containers.soma_NNModule exp_unused)
      lif_neuron [one_one; one_one] = Ok (n, ys) /\
    Soma.u n <> Soma.u lif_neuron /\
    Soma.reset n = lif_neuron /\
    Spec.manual_calls (H := Containers.srm0_NNModule)
      srm0_layer [spike_left; spike_left] = Ok (l, zs) /\
    Layer.r l <> Layer.r srm0_layer /\
    Layer.SRM0Linear_reset l = srm0_layer.
Proof.
  destruct (reset_restores_initial_state exp_unused) as [Hsoma Hsrm0].
  eexists _, _, _, _.
  split; [reflexivity|]. split; [discriminate|].
  split.
  { refine (proj1 (Hsoma lif_neuron _ [one_one; one_one] _ _ eq_refl)).
    apply Spec.new_LIF. }
  split; [reflexivity|]. split; [discriminate|].
  refine (proj1 (Hsrm0 srm0_layer _ [spike_left; spike_left] _ _ eq_refl)).
  apply Spec.new_SRM0Linear.
Defined.

(** The first pass of a fresh layer cannot fire ([R] starts at 0); the
    second fires the left unit, which the third then keeps silent
    although its input is the same. *)
Lemma SRM0Linear_refractory_witness :
  let l1 := srm0_after srm0_layer spike_left in
  let l2 := srm0_after l1 spike_left in
  let out2 := srm0_out l1 spike_left in
  let out3 := srm0_out l2 spike_left in
  Layer.SRM0Linear_forward l1 spike_left = Ok (l2, out2) /\
  at_ out2 0 = Some 1 /\
  Layer.r l2 = Some (PyTensor (tmap (fun e => 1 - e) out2)) /\
  at_ out3 0 = Some 0.
Proof.
  intros l1 l2 out2 out3.
  assert (H1 : Layer.SRM0Linear_forward l1 spike_left = Ok (l2, out2))
    by reflexivity.
  assert (H2 : Layer.SRM0Linear_forward l2 spike_left
               = Ok (srm0_after l2 spike_left, out3)) by reflexivity.
  destruct (proj2 (SRM0Linear_refractory l1 spike_left) l2 out2 H1)
    as (Hr & _ & Hnext).
  destruct (Hnext _ _ _ H2) as (R & X & U & _ & _ & _ & Hfired).
  destruct (Hfired 0%nat eq_refl) as (Xi & _ & _ & _ & _ & Hquiet).
  split; [exact H1|]. split; [reflexivity|]. split; [exact Hr|].
  exact (Hquiet eq_refl eq_refl).
Defined.

(** The first step of a default Izhikevich neuron on input 1: [w] stays
    0 and the potential is 140 - 0 + 1 before firing. *)
Lemma Izhikevich_forward_update_witness :
  exists n' o U wn,
    Soma.forward exp_unused izhikevich_neuron one_one = Ok (n', o) /\
    Soma.w n' = Some (PyTensor wn) /\
    o = Soma.f_firing izhikevich_neuron U /\
    at_ wn 0 = Some (0 + 1 * (1 * 0 - 0)) /\
    at_ U 0 = Some (0 + Q2Qc (4 # 100) * 0 * 0 + Q2Qc 5 * 0 + Q2Qc 140
                    - (0 + 1 * (1 * 0 - 0)) + 1).
Proof.
  destruct (Izhikevich_forward_update exp_unused izhikevich_neuron 1 1
              one_one eq_refl) as [Htotal Hupdate].
  destruct (Htotal (PyFloat 0) (PyFloat 0) eq_refl eq_refl I I
              Rectangular_shape_preserving) as (n' & o & Hf).
  destruct (Hupdate n' o Hf)
    as (u0 & w0 & U & wn & h & Hu & Hw & Hw' & _ & Ho & _ & _ & _ & Hel).
  destruct (Hel 0%nat 1 eq_refl) as (hi & wi & Hhi & Hwi & Hwn & HU).
  injection Hu as <-. injection Hw as <-.
  injection Hhi as <-. injection Hwi as <-.
  exists n', o, U, wn. auto.
Defined.

(** Two steps on [half_quarter]: the left element crosses the threshold
    at the second step, the right one holds two quarters. *)
Lemma IF_constant_input_accumulates_witness :
  exists nk ys uk y,
    Spec.manual_calls (H := Containers.soma_NNModule exp_unused)
      if_neuron (repeat half_quarter 2) = Ok (nk, ys) /\
    Soma.u nk = Some uk /\
    Spec.value_at uk 0 = Some 0 /\
    nth_error ys 1 = Some y /\ at_ y 0 = Some 1 /\
    Spec.value_at uk 1 = Some (0 + Spec.times 2 quarter) /\
    at_ y 1 = Some 0.
Proof.
  destruct (IF_constant_input_accumulates exp_unused if_neuron
              half_quarter 2 eq_refl eq_refl eq_refl eq_refl)
    as (nk & ys & uk & Hrun & Hlen & Hu & Hel).
  destruct (Hel 0%nat half eq_refl eq_refl) as [_ Hcross].
  destruct (Hcross 1%nat eq_refl eq_refl) as (Hrest & _ & y & Hy & Hy1).
  { discriminate. }
  destruct (Hel 1%nat quarter eq_refl eq_refl) as [Hbelow _].
  destruct (Hbelow eq_refl) as [Hpot Hzero].
  exists nk, ys, uk, y. repeat (split; [assumption|]).
  exact (Hzero 1%nat y Hy).
Defined.

(** [val_to_spike] on fractional, negative and large values. *)
Example val_to_spike_forward_example :
  data (Layer.val_to_spike_forward
          (mkTensor [4]%nat [half; quarter; - (1); Q2Qc 3]))
  = [1; 0; 0; 1].
Proof. reflexivity. Qed.

(** The averages 1/2, 1 and 0 leave the layer as 1, 1 and 0. *)
Example AvgPool1d_example :
  fmap data (Layer.adapter_forward (Layer.AvgPool1d avg_pool_pairs)
               (mkTensor [6]%nat [1; 0; 1; 1; 0; 0]))
  = Ok [1; 1; 0].
Proof. reflexivity. Qed.

(** A max-pooling layer that returns indices fails in [val_to_spike]. *)
Example MaxPool1d_return_indices_example (x : tensor) :
  Layer.adapter_forward (Layer.MaxPool1d (fun t => Ok (OTuple t t))) x
  = Raise AttributeError.
Proof. reflexivity. Qed.

(** A container with an adapter as its only stage. *)
Example Container_forward_example :
  fmap (fun p => data (snd p))
    (Containers.Container_forward
       (H := Containers.adapter_NNModule)
       (H0 := Containers.adapter_NNModule)
       (H1 := Containers.adapter_NNModule)
       (Containers.Container_init
          None (Some (Some (Layer.AvgPool1d avg_pool_pairs))) None)
       (mkTensor [6]%nat [1; 0; 1; 1; 0; 0]))
  = Ok [1; 1; 0].
Proof. reflexivity. Qed.

(** The temporal container fails on an empty time axis: there is nothing
    to stack. *)
Example Temporal_forward_empty_example :
  fmap snd
    (Containers.Temporal_forward
       (H := Containers.soma_NNModule exp_unused)
       (Containers.Temporal_init if_neuron None) (mkTensor [0; 1]%nat []))
  = Raise RuntimeError.
Proof. reflexivity. Qed.

(** An LIF neuron built with [tau_m = 0.0] exists and fails on its first
    input. *)
Example LIF_zero_tau_m_example :
  Soma.tau_m (Soma.LIF_init (Some 0) None None None) = 0 /\
  Soma.forward exp_unused (Soma.LIF_init (Some 0) None None None) one_one
  = Raise ZeroDivisionError.
Proof. split; reflexivity. Qed.


(* ------------------------------------------------------------------ *)
(** ** The neurons element by element (soma.py) *)

Lemma float_div_Ok_inv (a b k : Qc) :
  float_div a b = Ok k -> b <> 0 /\ k = a / b.
Proof.
  unfold float_div. destruct (Qc_eq_bool b 0) eqn:E; [discriminate|].
  intros Hk. injection Hk as <-. split; [|reflexivity].
  apply Qc_eq_bool_false. exact E.
Qed.

Lemma div_float_Ok_inv (x y : tensor) (d : Qc) :
  div_float x d = Ok y -> d <> 0 /\ y = tmap (fun e => e / d) x.
Proof.
  unfold div_float. destruct (Qc_eq_bool d 0) eqn:E; [discriminate|].
  intros Hy. injection Hy as <-. split; [|reflexivity].
  apply Qc_eq_bool_false. exact E.
Qed.

(** The response stage of the classes without [w], read at one index. *)
Lemma f_response_pointwise (exp : Qc -> Qc) (n n1 : Soma.soma)
    (h x U : tensor) :
  Pointwise.only_u (Soma.class_ n) = true ->
  Soma.f_response exp n h x = Ok (n1, U) ->
  n1 = n /\ like x U /\ like x h /\
  forall i hi xi, at_ h i = Some hi -> at_ x i = Some xi ->
    at_ U i = Some (Pointwise.response exp (Soma.class_ n) (Soma.tau_m n)
                      (Soma.u_rest n) hi xi).
Proof.
  intros Honly Hr. unfold Soma.f_response in Hr.
  destruct (Soma.class_ n) as [| | |a_0 u_c|u_t delta_t|a b] eqn:Hc;
    try discriminate Honly;
    unfold Soma.RFRSkeleton_f_response, Soma.IF_f_response,
           Soma.LIF_f_response, Soma.QIF_f_response,
           Soma.EIF_f_response in Hr;
    repeat (inv_bind Hr); injection Hr as <- <-;
    repeat match goal with
           | H : float_div _ _ = Ok _ |- _ =>
               apply float_div_Ok_inv in H; destruct H as [? ->]
           | H : div_float _ _ = Ok _ |- _ =>
               apply div_float_Ok_inv in H; destruct H as [? ->]
           end;
    repeat match goal with
           | H : add _ _ = Ok _ |- _ => unfold add in H
           | H : mul _ _ = Ok _ |- _ => unfold mul in H
           end;
    (split; [reflexivity|]).
  all: repeat match goal with
              | H : tzip ?f ?a ?b = Ok ?c |- _ =>
                  lazymatch goal with
                  | _ : like a b |- _ => fail
                  | _ => pose proof (tzip_Ok_like f a b c H) as [? [? _]]
                  end
              end.
  all: (split; [like_solve|]); (split; [like_solve|]).
  all: intros i hi xi Hh Hx; simpl; at_simpl i; rewrite ?Hh, ?Hx; simpl.
  all: reflexivity.
Qed.

(** The response stage changes no hyperparameter, whatever the class. *)
Lemma f_response_keeps (exp : Qc -> Qc) (n n1 : Soma.soma) (h x U : tensor) :
  Soma.f_response exp n h x = Ok (n1, U) ->
  Soma.class_ n1 = Soma.class_ n /\ Soma.tau_m n1 = Soma.tau_m n /\
  Soma.u_threshold n1 = Soma.u_threshold n /\
  Soma.u_rest n1 = Soma.u_rest n /\
  Soma.spiking_function n1 = Soma.spiking_function n /\
  Soma.u n1 = Soma.u n.
Proof.
  destruct n as [c t th r sf u w]. unfold Soma.f_response. simpl.
  destruct c; intros Hr;
    unfold Soma.RFRSkeleton_f_response, Soma.IF_f_response,
           Soma.LIF_f_response, Soma.QIF_f_response,
           Soma.EIF_f_response, Soma.Izhikevich_f_response in Hr;
    repeat (inv_bind Hr); injection Hr as <- <-; repeat split.
Qed.

(** The reset stage read at one index. *)
Lemma f_reset_pointwise (n : Soma.soma) (U o h' : tensor) :
  Soma.f_reset n U o = Ok h' ->
  like U o /\ like U h' /\
  forall i Ui oi, at_ U i = Some Ui -> at_ o i = Some oi ->
    at_ h' i = Some (Pointwise.keep_or_reset (Soma.u_rest n) Ui oi).
Proof.
  unfold Soma.f_reset, add, mul. intros Hr. inv_bind Hr.
  pose proof (tzip_Ok_like _ _ _ _ Ha) as [L1 [L2 _]].
  pose proof (tzip_Ok_like _ _ _ _ Hr) as [L3 [L4 _]].
  split; [like_solve|]. split; [like_solve|].
  intros i Ui oi HU Ho. at_simpl i. rewrite HU, Ho. reflexivity.
Qed.


(** The forward pass in its three stages. *)
Lemma Soma_forward_inv (exp : Qc -> Qc) (n n' : Soma.soma) (x o : tensor) :
  Soma.forward exp n x = Ok (n', o) ->
  exists u0 n1 U h',
    Soma.u n = Some u0 /\
    Soma.f_response exp (Soma.set_u n (PyTensor (Soma.init_tensor u0 x)))
      (Soma.init_tensor u0 x) x = Ok (n1, U) /\
    o = Soma.f_firing n U /\
    Soma.f_reset n U o = Ok h' /\
    n' = Soma.set_u n1 (PyTensor h').
Proof.
  unfold Soma.forward. intros Hf. inv_bind Hf. rename a into u0.
  inv_bind Hf. destruct a as [n1 U]. inv_bind Hf. rename a into h'.
  injection Hf as <- <-.
  destruct (Soma.u n) as [u0'|] eqn:Hu; [|discriminate Ha].
  injection Ha as ->.
  destruct (f_response_keeps _ _ _ _ _ _ Ha0)
    as (Hc & Ht & Hth & Hur & Hsf & _).
  exists u0, n1, U, h'. split; [reflexivity|]. split; [exact Ha0|].
  simpl in Hth, Hur, Hsf.
  split.
  { unfold Soma.f_firing. simpl. rewrite Hsf, Hth. reflexivity. }
  split; [|destruct n1; reflexivity].
  unfold Soma.f_reset, Soma.f_firing in *. simpl in *.
  rewrite Hur, Hsf, Hth in Ha1. rewrite Hsf, Hth. exact Ha1.
Qed.


(** The forward pass of the classes without [w], on the default spiking
    function, read at one index. *)
Lemma Soma_forward_pointwise (exp : Qc -> Qc) (n n' : Soma.soma)
    (x o : tensor) :
  Pointwise.only_u (Soma.class_ n) = true ->
  Soma.spiking_function n = Surrogate.Rectangular ->
  Soma.forward exp n x = Ok (n', o) ->
  exists u0 h',
    Soma.u n = Some u0 /\ n' = Soma.set_u n (PyTensor h') /\
    like x o /\ like x h' /\
    forall i xi, at_ x i = Some xi ->
      exists ui,
        Spec.value_at u0 i = Some ui /\
        at_ o i = Some (Pointwise.fire (Soma.u_threshold n)
                          (Pointwise.response exp (Soma.class_ n)
                             (Soma.tau_m n) (Soma.u_rest n) ui xi)) /\
        at_ h' i = Some (Pointwise.step exp (Soma.class_ n) (Soma.tau_m n)
                           (Soma.u_threshold n) (Soma.u_rest n) ui xi).
Proof.
  intros Honly Hsf Hf.
  destruct (Soma_forward_inv exp n n' x o Hf)
    as (u0 & n1 & U & h' & Hu & Hresp & Ho & Hreset & Hn').
  destruct (f_response_pointwise exp
              (Soma.set_u n (PyTensor (Soma.init_tensor u0 x)))
              n1 _ x U Honly Hresp) as (Hn1 & LU & Lh & Hel).
  destruct (f_reset_pointwise n U o h' Hreset) as (L1 & L2 & Hel').
  exists u0, h'. split; [exact Hu|].
  split; [rewrite Hn', Hn1; destruct n; reflexivity|].
  split; [like_solve|]. split; [like_solve|].
  intros i xi Hx.
  destruct (like_at x _ i xi Lh Hx) as [ui Hui].
  exists ui. split; [rewrite <- (at_init_tensor x u0 i xi Hx); exact Hui|].
  pose proof (Hel i ui xi Hui Hx) as HU. simpl in HU.
  assert (Hoi : at_ o i
                = Some (Pointwise.fire (Soma.u_threshold n)
                          (Pointwise.response exp (Soma.class_ n)
                             (Soma.tau_m n) (Soma.u_rest n) ui xi))).
  { rewrite Ho. unfold Soma.f_firing. rewrite Hsf.
    unfold Surrogate.Rectangular. rewrite !at_tmap, HU. reflexivity. }
  split; [exact Hoi|]. exact (Hel' i _ _ HU Hoi).
Qed.

(** X2.  No element of a neuron sees another.  For the classes whose only
    state is [u] (RFRSkeleton, IF, LIF, QIF, EIF) on the default spiking
    function, a forward pass returns whenever the stored potential is a
    float or a tensor like the input (and [tau_m], [delta_t] are not zero
    where the class divides by them); it changes no attribute but [u];
    and the spike and the new potential at an index are functions of the
    input and the old potential at that index alone. *)
Theorem RFR_forward_acts_elementwise (exp : Qc -> Qc) (n : Soma.soma)
    (x : tensor) :
  Pointwise.only_u (Soma.class_ n) = true ->
  Soma.spiking_function n = Surrogate.Rectangular ->
  (forall u0,
     Soma.u n = Some u0 -> value_like x u0 ->
     (Spec.divides_by_tau_m (Soma.class_ n) = true -> Soma.tau_m n <> 0) ->
     (forall u_t delta_t, Soma.class_ n = Soma.cEIF u_t delta_t ->
        delta_t <> 0) ->
     exists n' o, Soma.forward exp n x = Ok (n', o)) /\
  forall n' o,
    Soma.forward exp n x = Ok (n', o) ->
    exists u0 h',
      Soma.u n = Some u0 /\ n' = Soma.set_u n (PyTensor h') /\
      like x o /\ like x h' /\
      forall i xi, at_ x i = Some xi ->
        exists ui,
          Spec.value_at u0 i = Some ui /\
          at_ o i = Some (Pointwise.fire (Soma.u_threshold n)
                            (Pointwise.response exp (Soma.class_ n)
                               (Soma.tau_m n) (Soma.u_rest n) ui xi)) /\
          at_ h' i = Some (Pointwise.step exp (Soma.class_ n)
                             (Soma.tau_m n) (Soma.u_threshold n)
                             (Soma.u_rest n) ui xi).
Proof.
  intros Honly Hsf. split.
  - intros u0 Hu Hlu Htau Hdt.
    destruct (Soma_forward_total exp n x u0 Hu Hlu) as (n' & o & _ & Hf & _);
      try assumption.
    + rewrite Hsf. apply Rectangular_shape_preserving.
    + intros a b Hc. rewrite Hc in Honly. discriminate Honly.
    + exists n', o. exact Hf.
  - intros n' o Hf. exact (Soma_forward_pointwise exp n n' x o Honly Hsf Hf).
Qed.

(** A run on a constant input, element by element. *)
Lemma pointwise_run (exp : Qc -> Qc) (x : tensor) (k : nat) :
  forall (n : Soma.soma) (u0 : value),
    Pointwise.only_u (Soma.class_ n) = true ->
    Soma.spiking_function n = Surrogate.Rectangular ->
    (Spec.divides_by_tau_m (Soma.class_ n) = true -> Soma.tau_m n <> 0) ->
    (forall u_t delta_t, Soma.class_ n = Soma.cEIF u_t delta_t ->
       delta_t <> 0) ->
    Soma.u n = Some u0 -> value_like x u0 ->
    exists nk ys uk,
      Spec.manual_calls (H := Containers.soma_NNModule exp) n (repeat x k)
        = Ok (nk, ys) /\
      length ys = k /\ nk = Soma.set_u n uk /\
      forall i xi ui, at_ x i = Some xi -> Spec.value_at u0 i = Some ui ->
        Spec.value_at uk i
          = Some (Pointwise.potential_after exp (Soma.class_ n)
                    (Soma.tau_m n) (Soma.u_threshold n) (Soma.u_rest n)
                    xi ui k) /\
        forall j, (j < k)%nat ->
          exists y, nth_error ys j = Some y /\
            at_ y i = Some (Pointwise.spike_at exp (Soma.class_ n)
                              (Soma.tau_m n) (Soma.u_threshold n)
                              (Soma.u_rest n) xi ui j).
Proof.
  induction k as [|k IH]; intros n u0 Honly Hsf Htau Hdt Hu Hlu.
  - exists n, [], u0. simpl. split; [reflexivity|]. split; [reflexivity|].
    split; [destruct n; simpl in Hu; subst; reflexivity|].
    intros i xi ui Hx Hui. split; [exact Hui|]. intros j Hj. lia.
  - destruct (Soma_forward_total exp n x u0 Hu Hlu)
      as (n1 & o & _ & Hf & _); try assumption.
    { rewrite Hsf. apply Rectangular_shape_preserving. }
    { intros a b Hc. rewrite Hc in Honly. discriminate Honly. }
    destruct (Soma_forward_pointwise exp n n1 x o Honly Hsf Hf)
      as (u0' & h1 & Hu' & Hn1 & Lo & Lh & Hel).
    assert (u0' = u0) by congruence. subst u0'.
    destruct (IH n1 (PyTensor h1)) as (nk & ys & uk & Hrun & Hlen & Hnk & Hk);
      try (rewrite Hn1; simpl; assumption).
    { rewrite Hn1. reflexivity. }
    { exact Lh. }
    exists nk, (o :: ys), uk. simpl.
    change (Containers.call n x) with (Soma.forward exp n x).
    rewrite Hf. simpl. rewrite Hrun. simpl.
    split; [reflexivity|]. split; [congruence|].
    split; [rewrite Hnk, Hn1; destruct n; reflexivity|].
    intros i xi ui Hx Hui.
    destruct (Hel i xi Hx) as (ui' & Hui' & Ho & Hh).
    assert (ui' = ui) by congruence. subst ui'.
    destruct (Hk i xi _ Hx Hh) as [Hpot Hout].
    rewrite Hn1 in Hpot, Hout. simpl in Hpot, Hout.
    split; [exact Hpot|].
    intros [|j] Hj.
    + exists o. split; [reflexivity | exact Ho].
    + apply Hout. lia.
Qed.

(* ------------------------------------------------------------------ *)
(** ** Order on the rationals *)

From Stdlib Require Import Lqa.

Lemma Qc_eq_Qeq (x y : Qc) : x = y <-> (this x == this y)%Q.
Proof. split; [intros ->; reflexivity | apply Qc_is_canon]. Qed.

(** Turn a goal on canonical rationals into one on [Q], for [lra]. *)
Ltac qc_to_q :=
  unfold Qclt, Qcle in *;
  repeat match goal with
         | H : @eq Qc _ _ |- _ => apply Qc_eq_Qeq in H
         | H : ~ @eq Qc _ _ |- _ => rewrite Qc_eq_Qeq in H
         end;
  try apply Qc_eq_Qeq;
  unfold Qcdiv, Qcminus, Qcplus, Qcmult, Qcopp, Qcinv, Q2Qc in *;
  cbn [this] in *;
  rewrite ?Qred_correct in *.

Lemma convex_below (q h ur th : Qc) :
  0 <= q -> q <= 1 -> h < th -> ur < th -> ur + q * (h - ur) < th.
Proof.
  intros H0 H1 Hh Hr. qc_to_q.
  set (Q := this q) in *. set (P := this h) in *.
  set (R := this ur) in *. set (T := this th) in *.
  assert (0 <= (1 - Q) * (T - R))%Q by nra.
  destruct (Qlt_le_dec 0 Q).
  - assert (0 < Q * (T - P))%Q by nra. lra.
  - assert (Q * (P + - R) == 0)%Q by nra. lra.
Qed.

Lemma decay_factor_bounds (tau : Qc) :
  1 <= tau -> tau <> 0 /\ 0 <= 1 - 1 / tau /\ 1 - 1 / tau <= 1.
Proof.
  intros Ht. split.
  - intros ->. apply (Qcle_not_lt _ _ Ht). reflexivity.
  - qc_to_q.
    assert (0 < / this tau)%Q by (apply Qinv_lt_0_compat; lra).
    assert (this tau * / this tau == 1)%Q by (apply Qmult_inv_r; lra).
    split; nra.
Qed.

(* ------------------------------------------------------------------ *)
(** ** The leaky neuron without input (soma.py) *)

Lemma leaky_response_zero (exp : Qc -> Qc) (c : Soma.cls)
    (tau ur h : Qc) :
  Pointwise.leaky c ->
  Pointwise.response exp c tau ur h 0 = ur + (1 - 1 / tau) * (h - ur).
Proof. intros [-> | ->]; simpl; ring. Qed.

Lemma leaky_decay (exp : Qc -> Qc) (c : Soma.cls) (tau th ur : Qc) :
  Pointwise.leaky c -> 1 <= tau -> ur < th ->
  forall k h, h < th ->
    Pointwise.potential_after exp c tau th ur 0 h k
      = ur + (1 - 1 / tau) ^ k * (h - ur) /\
    Pointwise.potential_after exp c tau th ur 0 h k < th.
Proof.
  intros Hc Htau Hur.
  destruct (decay_factor_bounds tau Htau) as (_ & Hq0 & Hq1).
  induction k as [|k IH]; intros h Hh.
  - simpl. split; [ring | exact Hh].
  - assert (HU : ur + (1 - 1 / tau) * (h - ur) < th)
      by (apply convex_below; assumption).
    assert (Hstep : Pointwise.step exp c tau th ur h 0
                    = ur + (1 - 1 / tau) * (h - ur)).
    { unfold Pointwise.step. rewrite (leaky_response_zero exp c tau ur h Hc).
      unfold Pointwise.fire, Pointwise.keep_or_reset.
      rewrite heaviside_below by (apply Qc_sub_lt_0; exact HU). ring. }
    simpl. rewrite Hstep. destruct (IH _ HU) as [Heq Hlt].
    split; [|exact Hlt]. rewrite Heq. ring.
Qed.

Lemma leaky_silent (exp : Qc -> Qc) (c : Soma.cls) (tau th ur h : Qc)
    (j : nat) :
  Pointwise.leaky c -> 1 <= tau -> ur < th -> h < th ->
  Pointwise.spike_at exp c tau th ur 0 h j = 0.
Proof.
  intros Hc Htau Hur Hh.
  destruct (decay_factor_bounds tau Htau) as (_ & Hq0 & Hq1).
  destruct (leaky_decay exp c tau th ur Hc Htau Hur j h Hh) as [_ Hlt].
  unfold Pointwise.spike_at, Pointwise.fire.
  rewrite (leaky_response_zero exp c tau ur _ Hc).
  apply heaviside_below, Qc_sub_lt_0, convex_below; assumption.
Qed.

(** X3.  Leak toward rest.  An LIF neuron (or the base RFRSkeleton) with
    [tau_m >= 1] and [u_rest] below the threshold is fed [k] times an
    input [z].  The run returns, and every element that receives 0 and
    starts below the threshold never fires, while its distance to
    [u_rest] is multiplied by [1 - 1/tau_m] at every step: after [k]
    steps it holds [u_rest + (1 - 1/tau_m)^k * (h - u_rest)]. *)
Theorem LIF_zero_input_decay (exp : Qc -> Qc) (n : Soma.soma)
    (z : tensor) (u0 : value) (k : nat) :
  Pointwise.leaky (Soma.class_ n) ->
  Soma.spiking_function n = Surrogate.Rectangular ->
  1 <= Soma.tau_m n -> Soma.u_rest n < Soma.u_threshold n ->
  Soma.u n = Some u0 -> value_like z u0 ->
  exists nk ys uk,
    Spec.manual_calls (H := Containers.soma_NNModule exp) n (repeat z k)
      = Ok (nk, ys) /\
    length ys = k /\ Soma.u nk = Some uk /\
    forall i h, at_ z i = Some 0 -> Spec.value_at u0 i = Some h ->
      h < Soma.u_threshold n ->
      Spec.value_at uk i
        = Some (Soma.u_rest n
                + (1 - 1 / Soma.tau_m n) ^ k * (h - Soma.u_rest n)) /\
      forall j y, nth_error ys j = Some y -> at_ y i = Some 0.
Proof.
  intros Hc Hsf Htau Hur Hu Hlu.
  destruct (decay_factor_bounds _ Htau) as (Hne & _).
  destruct (pointwise_run exp z k n u0) as (nk & ys & uk & Hrun & Hlen & Hnk & Hk);
    try assumption.
  { destruct Hc as [-> | ->]; reflexivity. }
  { intros _. exact Hne. }
  { intros u_t delta_t Hcl. destruct Hc as [H1 | H1]; congruence. }
  exists nk, ys, uk. split; [exact Hrun|]. split; [exact Hlen|].
  split; [rewrite Hnk; reflexivity|].
  intros i h Hz Hh Hlt.
  destruct (Hk i 0 h Hz Hh) as [Hpot Hout].
  split.
  - rewrite Hpot. f_equal.
    apply (leaky_decay exp _ _ _ _ Hc Htau Hur k h Hlt).
  - intros j y Hy.
    assert (Hj : (j < k)%nat)
      by (rewrite <- Hlen; apply nth_error_Some; congruence).
    destruct (Hout j Hj) as [y' [Hy' Hat]].
    assert (y' = y) by congruence. subst y'.
    rewrite Hat. f_equal. apply leaky_silent; assumption.
Qed.

(* ------------------------------------------------------------------ *)
(** ** The IF neuron fires periodically (soma.py) *)

Lemma IF_potential_add (th ur c : Qc) (a : nat) :
  forall u b,
    Spec.IF_potential th ur c u (a + b)
    = Spec.IF_potential th ur c (Spec.IF_potential th ur c u a) b.
Proof.
  induction a as [|a IH]; intros u b; simpl; [reflexivity | apply IH].
Qed.

(** From rest, the step that crosses the threshold leads back to rest. *)
Lemma IF_potential_period (th ur c : Qc) (N : nat) :
  0 < c -> ur + Spec.times N c < th -> th <= ur + Spec.times (S N) c ->
  Spec.IF_potential th ur c ur (S N) = ur.
Proof.
  intros Hc Hlo Hhi. rewrite IF_potential_last, IF_potential_below by assumption.
  apply IF_next_above. simpl in Hhi.
  replace (ur + Spec.times N c + c) with (ur + (Spec.times N c + c)) by ring.
  exact Hhi.
Qed.

Lemma IF_potential_cycles (th ur c : Qc) (N : nat) :
  0 < c -> ur + Spec.times N c < th -> th <= ur + Spec.times (S N) c ->
  forall q r,
    Spec.IF_potential th ur c ur (q * S N + r)
    = Spec.IF_potential th ur c ur r.
Proof.
  intros Hc Hlo Hhi q r. induction q as [|q IH]; [reflexivity|].
  replace (S q * S N + r)%nat with (S N + (q * S N + r))%nat by lia.
  rewrite IF_potential_add, (IF_potential_period th ur c N Hc Hlo Hhi).
  exact IH.
Qed.

(** The potential after [j] steps only depends on [j] modulo the period. *)
Lemma IF_potential_mod (th ur c : Qc) (N j : nat) :
  0 < c -> ur + Spec.times N c < th -> th <= ur + Spec.times (S N) c ->
  Spec.IF_potential th ur c ur j = ur + Spec.times (j mod S N) c.
Proof.
  intros Hc Hlo Hhi.
  assert (Hr : (j mod S N < S N)%nat) by (apply Nat.mod_upper_bound; lia).
  rewrite (Nat.div_mod_eq j (S N)) at 1.
  rewrite (Nat.mul_comm (S N) (j / S N)).
  rewrite (IF_potential_cycles th ur c N Hc Hlo Hhi).
  apply IF_potential_below; [exact Hc|].
  apply (times_below th ur c (j mod S N) N Hc); [lia | exact Hlo].
Qed.

Lemma IF_fire_mod (th ur c : Qc) (N j : nat) :
  0 < c -> ur + Spec.times N c < th -> th <= ur + Spec.times (S N) c ->
  Spec.IF_fire th (Spec.IF_potential th ur c ur j) c
  = if (j mod S N =? N)%nat then 1 else 0.
Proof.
  intros Hc Hlo Hhi.
  assert (Hr : (j mod S N < S N)%nat) by (apply Nat.mod_upper_bound; lia).
  rewrite (IF_potential_mod th ur c N j Hc Hlo Hhi).
  destruct (Nat.eqb_spec (j mod S N) N) as [E|E].
  - rewrite E. apply IF_fire_above. simpl in Hhi.
    replace (ur + Spec.times N c + c) with (ur + (Spec.times N c + c)) by ring.
    exact Hhi.
  - apply IF_fire_below.
    replace (ur + Spec.times (j mod S N) c + c)
      with (ur + Spec.times (S (j mod S N)) c) by (simpl; ring).
    apply (times_below th ur c (S (j mod S N)) N Hc); [lia | exact Hlo].
Qed.

(** X4.  An IF neuron in its resting state fires periodically under a
    constant input.  Let an element receive the same [c > 0] at every
    step, and let [N + 1] be the number of steps it takes from rest to
    reach the threshold ([u_rest + N*c < u_threshold <= u_rest +
    (N+1)*c]).  Then, for every length [k] of the run: the run returns;
    the element spikes at step [j] (counted from 0) exactly when [j] is
    [N] modulo [N + 1]; and the potential stored after [k] steps is
    [u_rest + (k mod (N+1)) * c]. *)
Theorem IF_constant_input_fires_periodically (exp : Qc -> Qc)
    (n0 : Soma.soma) (x : tensor) (k : nat) :
  Soma.class_ n0 = Soma.cIF ->
  Soma.spiking_function n0 = Surrogate.Rectangular ->
  Soma.u n0 = Some (PyFloat (Soma.u_rest n0)) ->
  exists nk ys uk,
    Spec.manual_calls (H := Containers.soma_NNModule exp) n0 (repeat x k)
      = Ok (nk, ys) /\
    length ys = k /\ Soma.u nk = Some uk /\
    forall i c N, at_ x i = Some c -> 0 < c ->
      Soma.u_rest n0 + Spec.times N c < Soma.u_threshold n0 ->
      Soma.u_threshold n0 <= Soma.u_rest n0 + Spec.times (S N) c ->
      Spec.value_at uk i
        = Some (Soma.u_rest n0 + Spec.times (k mod S N) c) /\
      forall j y, nth_error ys j = Some y ->
        at_ y i = Some (if (j mod S N =? N)%nat then 1 else 0).
Proof.
  intros Hcl Hsf Hu.
  destruct (IF_run exp x k n0 (PyFloat (Soma.u_rest n0)) Hcl Hsf Hu I)
    as (nk & ys & uk & Hrun & Hlen & Huk & Hk).
  exists nk, ys, uk. repeat (split; [assumption|]).
  intros i c N Hx Hc Hlo Hhi.
  destruct (Hk i c (Soma.u_rest n0) Hx eq_refl) as [Hpot Hout].
  split.
  - rewrite Hpot. f_equal. apply IF_potential_mod; assumption.
  - intros j y Hy.
    assert (Hj : (j < k)%nat)
      by (rewrite <- Hlen; apply nth_error_Some; congruence).
    destruct (Hout j Hj) as [y' [Hy' Hat]].
    assert (y' = y) by congruence. subst y'.
    rewrite Hat. f_equal. apply IF_fire_mod; assumption.
Qed.

(* ------------------------------------------------------------------ *)
(** ** Spikes through the adapters (layer.py) *)

Lemma map_threshold_binary (l : list Qc) :
  Forall (fun e => e = 0 \/ e = 1) l ->
  map (fun v => if Qcleb (Q2Qc (1 # 2)) v then 1 else 0) l = l.
Proof.
  induction 1 as [|e l He _ IH]; simpl; [reflexivity|].
  rewrite IH. destruct He as [-> | ->]; reflexivity.
Qed.

(** [val_to_spike] leaves a tensor as it is exactly when its elements are
    0 or 1. *)
Lemma val_to_spike_forward_fixes (y : tensor) :
  Layer.val_to_spike_forward y = y <-> Spec.binary y.
Proof.
  split.
  - intros <-. apply ge_to_binary.
  - intros Hb. destruct y as [sh d].
    unfold Layer.val_to_spike_forward, ge_to, tmap. simpl. f_equal.
    apply map_threshold_binary. exact Hb.
Qed.

(** X5.  The adapters are transparent on spikes.  When the underlying
    torch operator returns a tensor [y], the layer returns [y] itself if
    and only if the elements of [y] are 0 or 1: max-pooling, flattening
    and unflattening of spike tensors are those of torch, and only
    fractional or out-of-range values (averages) are changed.  Passing a
    tensor twice through [val_to_spike] is the same as once. *)
Theorem adapter_forward_keeps_spikes (layer : Layer.adapter)
    (x y : tensor) :
  Layer.adapter_super layer x = Ok (OTensor y) ->
  (Layer.adapter_forward layer x = Ok y <-> Spec.binary y) /\
  Layer.val_to_spike_forward (Layer.val_to_spike_forward y)
  = Layer.val_to_spike_forward y.
Proof.
  intros Hy. rewrite adapter_forward_unfold, Hy. simpl. split.
  - split.
    + intros Heq. injection Heq as Heq.
      apply val_to_spike_forward_fixes. exact Heq.
    + intros Hb. f_equal. apply val_to_spike_forward_fixes. exact Hb.
  - apply val_to_spike_forward_fixes. apply ge_to_binary.
Qed.

(* ------------------------------------------------------------------ *)
(** ** The first pass of an SRM0Linear layer (layer.py) *)

(** X6.  An SRM0Linear layer is deaf on its first pass.  After [reset]
    (and so after construction) the refractory state is the float 0.0,
    the response stage multiplies the synaptic input by it, and the
    potential is [u_rest] in every unit whatever the input and the
    weights are.  With the default spiking function and [u_rest] below
    [u_threshold] the first output is 0 everywhere, and the refractory
    state stored for the second pass is 1 everywhere. *)
Theorem SRM0Linear_first_pass_silent (l l1 : Layer.srm0) (o out1 : tensor) :
  Layer.SRM0Linear_forward (Layer.SRM0Linear_reset l) o = Ok (l1, out1) ->
  exists X U R,
    Layer.f_response l (Soma.init_tensor (PyFloat 0) X) X = Ok U /\
    out1 = Layer.f_firing l U /\
    Layer.r l1 = Some (PyTensor R) /\ like out1 R /\
    (forall i e, at_ U i = Some e -> e = Layer.u_rest l) /\
    (Layer.spiking_function l = Surrogate.Rectangular ->
     Layer.u_rest l < Layer.u_threshold l ->
     like X out1 /\
     (forall i e, at_ out1 i = Some e -> e = 0) /\
     (forall i e, at_ R i = Some e -> e = 1)).
Proof.
  intros Hf.
  destruct (SRM0Linear_forward_inv _ l1 o out1 Hf)
    as (s0 & r0 & s1 & X & U & Hs & Hr & Hs1 & HX & HU & Ho & Hl1).
  simpl in Hr. injection Hr as <-.
  change (Layer.f_response l (Soma.init_tensor (PyFloat 0) X) X = Ok U)
    in HU.
  change (out1 = Layer.f_firing l U) in Ho.
  exists X, U, (tmap (fun e => 1 - e) out1).
  split; [exact HU|]. split; [exact Ho|].
  split; [rewrite Hl1; reflexivity|].
  split; [apply like_tmap, like_refl|].
  assert (HUel : forall i e, at_ U i = Some e -> e = Layer.u_rest l).
  { intros i e He. unfold Layer.f_response, mul in HU. inv_bind HU.
    injection HU as <-. rewrite at_tmap, (at_tzip _ _ _ _ i Ha) in He.
    simpl in He. unfold ones_like in He. rewrite !at_tmap in He.
    destruct (at_ X i) as [xi|]; simpl in He; [|discriminate He].
    injection He as <-. ring. }
  split; [exact HUel|].
  intros Hsf Hlt.
  assert (LX : like X U).
  { unfold Layer.f_response, mul in HU. inv_bind HU. injection HU as <-.
    apply like_tmap. exact (proj1 (proj2 (tzip_Ok_like _ _ _ _ Ha))). }
  assert (Hzero : forall i e, at_ out1 i = Some e -> e = 0).
  { intros i e He. rewrite Ho in He. unfold Layer.f_firing in He.
    rewrite Hsf in He. unfold Surrogate.Rectangular in He.
    rewrite !at_tmap in He.
    destruct (at_ U i) as [ui|] eqn:EU; simpl in He; [|discriminate He].
    injection He as <-. rewrite (HUel i ui EU).
    apply heaviside_below, Qc_sub_lt_0. exact Hlt. }
  split.
  { rewrite Ho. unfold Layer.f_firing. rewrite Hsf.
    apply (like_trans X U); [exact LX|].
    unfold Surrogate.Rectangular. apply like_tmap, like_tmap, like_refl. }
  split; [exact Hzero|].
  intros i e He. rewrite at_tmap in He.
  destruct (at_ out1 i) as [oi|] eqn:EO; simpl in He; [|discriminate He].
  injection He as <-. rewrite (Hzero i oi EO). ring.
Qed.

(* ------------------------------------------------------------------ *)
(** ** The abstract skeleton PFHSkeleton (soma.py) *)

(** X7.  [PFHSkeleton] cannot run.  Its [forward] never returns an
    output, whatever the object and the input are, because [f_history]
    raises; on an object its constructor has returned, every input
    passes the potential and firing stages and the call ends in
    [NotImplementedError]. *)
Theorem PFHSkeleton_forward_not_implemented
    (tau_m u_threshold u_rest : option Qc)
    (spiking_function : option (tensor -> tensor)) (self : Soma.pfh) :
  Soma.PFHSkeleton_init tau_m u_threshold u_rest spiking_function
    = Ok self ->
  (forall x, Soma.PFHSkeleton_forward self x = Raise NotImplementedError) /\
  (forall (other : Soma.pfh) x r, Soma.PFHSkeleton_forward other x <> Ok r).
Proof.
  intros Hinit. split.
  - intros x. unfold Soma.PFHSkeleton_init in Hinit. inv_bind Hinit.
    injection Hinit as <-.
    unfold Py.assert in Ha.
    destruct (Qc_eq_bool (default 1 tau_m) 0) eqn:E; [discriminate Ha|].
    unfold Soma.PFHSkeleton_forward, Soma.PFHSkeleton_f_potential,
      Soma.PFHSkeleton_f_history, float_div, add. simpl. rewrite E. simpl.
    destruct (tzip_like Qcplus x
                (tmap (Qcmult (default 0 u_rest)) (ones_like x))
                (tmap (Qcmult (1 / default 1 tau_m)) x)) as [c [Hc _]].
    + apply like_tmap. unfold ones_like. apply like_tmap, like_refl.
    + apply like_tmap, like_refl.
    + rewrite Hc. reflexivity.
  - intros other x r Hr. unfold Soma.PFHSkeleton_forward in Hr.
    inv_bind Hr. inv_bind Hr. inv_bind Hr. discriminate Ha1.
Qed.

(* ------------------------------------------------------------------ *)
(** ** The synaptic trace of an SRM0Linear layer (layer.py) *)

Lemma trace_step_bound (tau s o : Qc) :
  1 < tau -> 0 <= s -> s <= tau / (tau - 1) -> 0 <= o -> o <= 1 ->
  0 <= 1 / tau * s + o /\ 1 / tau * s + o <= tau / (tau - 1).
Proof.
  intros Ht Hs0 Hs1 Ho0 Ho1. qc_to_q.
  set (T := this tau) in *. set (S0 := this s) in *. set (O := this o) in *.
  assert (Ha : (0 < / T)%Q) by (apply Qinv_lt_0_compat; lra).
  assert (Hd : (0 < / (T + - (1)))%Q) by (apply Qinv_lt_0_compat; lra).
  assert (Ea : (T * / T == 1)%Q) by (apply Qmult_inv_r; lra).
  assert (Ed : ((T + - (1)) * / (T + - (1)) == 1)%Q)
    by (apply Qmult_inv_r; lra).
  set (a := (/ T)%Q) in *. set (d := (/ (T + - (1)))%Q) in *.
  split; [nra|].
  assert (H1 : (a * S0 <= a * (T * d))%Q) by nra.
  nra.
Qed.

(** The trace stage read at one index. *)
Lemma SRM0Linear_trace_step (l l1 : Layer.srm0) (o out1 : tensor)
    (s0 : value) :
  Layer.SRM0Linear_forward l o = Ok (l1, out1) ->
  Layer.s l = Some s0 ->
  Layer.tau_m l1 = Layer.tau_m l /\
  exists s1,
    Layer.s l1 = Some (PyTensor s1) /\ like o s1 /\
    forall i e, at_ s1 i = Some e ->
      exists si oi,
        Spec.value_at s0 i = Some si /\ at_ o i = Some oi /\
        e = 1 / Layer.tau_m l * si + oi.
Proof.
  intros Hf Hs.
  destruct (SRM0Linear_forward_inv l l1 o out1 Hf)
    as (s0' & r0 & s1 & X & U & Hs' & Hr & Hs1 & HX & HU & Ho & Hl1).
  assert (s0' = s0) by congruence. subst s0'.
  split; [rewrite Hl1; reflexivity|].
  exists s1. split; [rewrite Hl1; reflexivity|].
  unfold Layer.f_synapse_response, add in Hs1. inv_bind Hs1.
  apply float_div_Ok_inv in Ha. destruct Ha as [_ ->].
  destruct (tzip_Ok_like _ _ _ _ Hs1) as (L1 & L2 & _).
  split; [like_solve|].
  intros i e He. rewrite (at_tzip _ _ _ _ i Hs1), at_tmap in He.
  destruct (at_ o i) as [oi|] eqn:Eo.
  - rewrite (at_init_tensor o s0 i oi Eo) in He.
    destruct (Spec.value_at s0 i) as [si|]; simpl in He; [|discriminate He].
    injection He as <-. exists si, oi. auto.
  - destruct (at_ (Soma.init_tensor s0 o) i); simpl in He; discriminate He.
Qed.

(** X8.  The synaptic trace cannot blow up.  An SRM0Linear layer with
    [tau_m > 1] whose trace lies between 0 and [tau_m / (tau_m - 1)]
    (as the float 0.0 after [reset] does) is called on a sequence of
    inputs with elements between 0 and 1 (spikes).  Whenever the run
    returns, every element of the stored trace [s] still lies between 0
    and [tau_m / (tau_m - 1)], whatever the weights, the threshold and
    the spikes of the layer itself are. *)
Theorem SRM0Linear_trace_bounded (xs : list tensor) :
  forall (l lk : Layer.srm0) (ys : list tensor) (s0 : value),
    1 < Layer.tau_m l ->
    Layer.s l = Some s0 ->
    (forall i e, Spec.value_at s0 i = Some e ->
       0 <= e /\ e <= Layer.tau_m l / (Layer.tau_m l - 1)) ->
    Forall (fun x => forall i e, at_ x i = Some e -> 0 <= e /\ e <= 1) xs ->
    Spec.manual_calls (H := Containers.srm0_NNModule) l xs = Ok (lk, ys) ->
    exists sk,
      Layer.s lk = Some sk /\
      forall i e, Spec.value_at sk i = Some e ->
        0 <= e /\ e <= Layer.tau_m l / (Layer.tau_m l - 1).
Proof.
  induction xs as [|x xs IH]; intros l lk ys s0 Htau Hs Hs0 Hxs Hrun;
    simpl in Hrun.
  - injection Hrun as <- <-. exists s0. split; assumption.
  - inv_bind Hrun. destruct a as [l1 y]. inv_bind Hrun.
    destruct a as [l2 ys']. injection Hrun as <- <-.
    change (Layer.SRM0Linear_forward l x = Ok (l1, y)) in Ha.
    inversion Hxs as [|x' xs' Hx Hxs']; subst.
    destruct (SRM0Linear_trace_step l l1 x y s0 Ha Hs)
      as (Ht1 & s1 & Hs1 & _ & Hel).
    rewrite <- Ht1.
    apply (IH l1 l2 ys' (PyTensor s1)).
    + rewrite Ht1. exact Htau.
    + exact Hs1.
    + intros i e He. simpl in He. rewrite Ht1.
      destruct (Hel i e He) as (si & oi & Hsi & Hoi & ->).
      destruct (Hs0 i si Hsi) as [Hlo Hhi].
      destruct (Hx i oi Hoi) as [Holo Hohi].
      apply trace_step_bound; assumption.
    + exact Hxs'.
    + exact Ha0.
Qed.

(* ------------------------------------------------------------------ *)
(** ** The further theorems at concrete inputs *)


(** The first step of the default LIF neuron on input 1. *)
Lemma RFR_forward_acts_elementwise_witness :
  exists n' o h',
    Soma.forward exp_unused lif_neuron one_one = Ok (n', o) /\
    n' = Soma.set_u lif_neuron (PyTensor h') /\
    at_ o 0 = Some (Pointwise.fire 1
                      (Pointwise.response exp_unused Soma.cLIF (Q2Qc 2) 0
                         0 1)) /\
    at_ h' 0 = Some (Pointwise.step exp_unused Soma.cLIF (Q2Qc 2) 1 0 0 1).
Proof.
  destruct (RFR_forward_acts_elementwise exp_unused lif_neuron one_one
              eq_refl eq_refl) as [Htotal Hel].
  destruct (Htotal (PyFloat 0) eq_refl I) as (n' & o & Hf).
  { intros _. discriminate. }
  { intros u_t delta_t Hc. discriminate Hc. }
  destruct (Hel n' o Hf) as (u0 & h' & Hu & Hn' & _ & _ & Hi).
  destruct (Hi 0%nat 1 eq_refl) as (ui & Hui & Ho & Hh).
  injection Hu as <-. injection Hui as <-.
  exists n', o, h'. auto.
Defined.

(** Two steps without input take the potential 1/2 to 1/8. *)
Lemma LIF_zero_input_decay_witness :
  exists nk ys uk,
    Spec.manual_calls (H := Containers.soma_NNModule exp_unused)
      lif_charged (repeat zero_one 2) = Ok (nk, ys) /\
    Soma.u nk = Some uk /\
    Spec.value_at uk 0 = Some (0 + (1 - 1 / Q2Qc 2) ^ 2 * (half - 0)) /\
    forall j y, nth_error ys j = Some y -> at_ y 0 = Some 0.
Proof.
  destruct (LIF_zero_input_decay exp_unused lif_charged zero_one
              (PyTensor (mkTensor [1]%nat [half])) 2)
    as (nk & ys & uk & Hrun & _ & Hu & Hel).
  - right. reflexivity.
  - reflexivity.
  - discriminate.
  - reflexivity.
  - reflexivity.
  - split; reflexivity.
  - destruct (Hel 0%nat half eq_refl eq_refl eq_refl) as [Hpot Hout].
    exists nk, ys, uk. auto.
Defined.

(** Five steps on [half_quarter]: the left element has period 2 and has
    fired at steps 1 and 3, the right one has period 4 and has fired at
    step 3 only. *)
Lemma IF_constant_input_fires_periodically_witness :
  exists nk ys uk y3 y4,
    Spec.manual_calls (H := Containers.soma_NNModule exp_unused)
      if_neuron (repeat half_quarter 5) = Ok (nk, ys) /\
    Soma.u nk = Some uk /\
    nth_error ys 3 = Some y3 /\ nth_error ys 4 = Some y4 /\
    at_ y3 0 = Some 1 /\ at_ y4 0 = Some 0 /\
    Spec.value_at uk 0 = Some (0 + Spec.times 1 half) /\
    at_ y3 1 = Some 1 /\ at_ y4 1 = Some 0 /\
    Spec.value_at uk 1 = Some (0 + Spec.times 1 quarter).
Proof.
  destruct (IF_constant_input_fires_periodically exp_unused if_neuron
              half_quarter 5 eq_refl eq_refl eq_refl)
    as (nk & ys & uk & Hrun & Hlen & Hu & Hel).
  destruct (Hel 0%nat half 1%nat eq_refl eq_refl eq_refl) as [Hp0 Ho0].
  { discriminate. }
  destruct (Hel 1%nat quarter 3%nat eq_refl eq_refl eq_refl) as [Hp1 Ho1].
  { discriminate. }
  destruct (nth_error ys 3) as [y3|] eqn:H3;
    [|apply nth_error_None in H3; lia].
  destruct (nth_error ys 4) as [y4|] eqn:H4;
    [|apply nth_error_None in H4; lia].
  exists nk, ys, uk, y3, y4.
  split; [exact Hrun|]. split; [exact Hu|].
  split; [exact H3|]. split; [exact H4|].
  split; [exact (Ho0 3%nat y3 H3)|]. split; [exact (Ho0 4%nat y4 H4)|].
  split; [exact Hp0|].
  split; [exact (Ho1 3%nat y3 H3)|]. split; [exact (Ho1 4%nat y4 H4)|].
  exact Hp1.
Defined.

(** Averages that are 0 or 1 pass the layer unchanged. *)
Lemma adapter_forward_keeps_spikes_witness :
  Layer.adapter_forward (Layer.AvgPool1d avg_pool_pairs) spike_pairs
  = Ok (mkTensor [2]%nat [(1 + 1) / Q2Qc 2; (0 + 0) / Q2Qc 2]).
Proof.
  apply (adapter_forward_keeps_spikes (Layer.AvgPool1d avg_pool_pairs)
           spike_pairs _ eq_refl).
  apply Forall_cons; [right; apply Qc_is_canon; reflexivity|].
  apply Forall_cons; [left; apply Qc_is_canon; reflexivity|].
  apply Forall_nil.
Defined.

(** The first pass of the identity layer on a spike in the left unit:
    no unit fires. *)
Lemma SRM0Linear_first_pass_silent_witness :
  at_ (srm0_out (Layer.SRM0Linear_reset srm0_layer) spike_left) 0 = Some 0.
Proof.
  destruct (SRM0Linear_first_pass_silent srm0_layer
              (srm0_after (Layer.SRM0Linear_reset srm0_layer) spike_left)
              spike_left
              (srm0_out (Layer.SRM0Linear_reset srm0_layer) spike_left)
              eq_refl)
    as (X & U & R & _ & _ & _ & _ & _ & Hquiet).
  destruct (Hquiet eq_refl eq_refl) as (_ & Hzero & _).
  destruct (at_ (srm0_out (Layer.SRM0Linear_reset srm0_layer) spike_left) 0)
    as [e|] eqn:E; [|discriminate E].
  f_equal. exact (Hzero 0%nat e E).
Defined.

(** The default skeleton is built and fails on its first input. *)
Lemma PFHSkeleton_forward_not_implemented_witness :
  exists self,
    Soma.PFHSkeleton_init None None None None = Ok self /\
    Soma.PFHSkeleton_forward self one_one = Raise NotImplementedError.
Proof.
  eexists. split; [reflexivity|].
  exact (proj1 (PFHSkeleton_forward_not_implemented None None None None
                  _ eq_refl) one_one).
Defined.

(** Two passes of the identity layer on [spike_left], with [tau_m = 2]:
    the trace stays within 0 and 2. *)
Lemma SRM0Linear_trace_bounded_witness :
  exists lk ys sk,
    Spec.manual_calls (H := Containers.srm0_NNModule) srm0_layer
      [spike_left; spike_left] = Ok (lk, ys) /\
    Layer.s lk = Some sk /\
    forall i e, Spec.value_at sk i = Some e ->
      0 <= e /\ e <= Q2Qc 2 / (Q2Qc 2 - 1).
Proof.
  assert (Hrun : exists lk ys,
             Spec.manual_calls (H := Containers.srm0_NNModule) srm0_layer
               [spike_left; spike_left] = Ok (lk, ys)).
  { eexists _, _. reflexivity. }
  destruct Hrun as (lk & ys & Hrun).
  assert (Hspike : forall i e, at_ spike_left i = Some e -> 0 <= e /\ e <= 1).
  { intros [|[|[|i]]] e He; simpl in He; try discriminate He;
      injection He as <-; split; discriminate. }
  destruct (SRM0Linear_trace_bounded [spike_left; spike_left]
              srm0_layer lk ys (PyFloat 0)) as (sk & Hsk & Hb).
  - reflexivity.
  - reflexivity.
  - intros i e He. injection He as <-. split; discriminate.
  - apply Forall_cons; [exact Hspike|].
    apply Forall_cons; [exact Hspike|]. apply Forall_nil.
  - exact Hrun.
  - exists lk, ys, sk. auto.
Defined.
